(** * A shallow embedding of the vantage-point index of [src/db.cpp]

    [imghash::Database::Impl] keeps fingerprints ("points") in an SQLite
    database and answers radius queries with the help of vantage points.
    The SQL tables are modelled as lists of rows in rowid order, the
    statements by what they select or change, and the C++ member functions
    as computations in a state-and-exception monad over the object's fields.

    Reading conventions for the source, which is a snapshot taken in the
    middle of a renaming:
    - the tables called [points] in the generated statements are the
      [mvp_points] of the schema;
    - the statement handles [increment_count], [get_vantage_points],
      [get_all_point_values], [update_point], [insert_vantage_point],
      [clear_query] and [insert_query] are the members [upd_count],
      [sel_vps], [sel_all_points], [upd_point], [ins_vp], [del_query] and
      [ins_query], whose SQL text is in the file;
    - in [insert_point_] the vector bound to the statement, written [dists],
      is the local [vp_dists], the only vector of distances in scope;
    - the column [part] of [mvp_points] and the table [mvp_parts] are never
      written by any statement and are left out;
    - a parameter written where SQL wants a name ([$table], [$col], [$idx])
      stands for the name bound to it, and a parameter is bound by its name
      with or without the [$].

    SQLiteCpp binds an [int32_t] as a 32-bit integer and a [uint32_t] as a
    64-bit one, so a bound [uint32_t] is stored with its unsigned value. A
    blob is bound by [data()] and [size()] of the vector; [data()] of an
    empty vector, which owns no storage, is a null pointer, and a blob bound
    by a null pointer is NULL. A statement that violates a constraint, names
    a missing column or is bound beyond its last parameter throws. *)

From Stdlib Require Import ZArith List Lia.
From Stdlib.Strings Require Import Byte.
From stdpp Require Import base option list gmap strings.

Local Open Scope Z_scope.

(** ** Fixed-width integers *)

(** Conversion to [uint32_t] and to [int] / [int32_t]: reduction modulo
    [2^32], read as unsigned or as two's complement. *)
Definition to_uint32 (x : Z) : Z := x mod 2 ^ 32.
Definition to_int32 (x : Z) : Z := (x + 2 ^ 31) mod 2 ^ 32 - 2 ^ 31.

Definition INT32_MAX : Z := 0x7FFFFFFF.
Definition UINT32_MAX : Z := 0xFFFFFFFF.

(** ** Rows and tables *)

#[global] Instance byte_eq_decision : EqDecision byte := byte_eq_dec.

(** [point_type] is [std::vector<uint8_t>]; an item is named by its path.
    A column [value] that holds NULL reads back, through [get_point_value],
    as the empty vector: in a row the empty [point_type] is NULL. *)
Definition point_type : Type := list byte.
Definition item_type : Type := string.

(** A row of [mvp_points]: [id], [value] and the cells of the columns
    [d{vp_id}], keyed by [vp_id]. A cell that holds NULL has no entry. *)
Record point_row := PointRow {
  p_id : Z;
  p_value : point_type;
  p_d : gmap Z Z
}.

Record vp_row := VpRow { vp_id : Z; vp_value : point_type }.

Record item_row := ItemRow { i_path : item_type; i_point_id : Z }.

Record counts_row := CountsRow {
  n_points : Z;
  n_vantage_points : Z;
  n_parts : Z;
  n_items : Z
}.

(** The database file together with the connection's [temp.mvp_query].
    [mvp_points_cols] lists the [d{vp_id}] columns that ALTER TABLE has
    added to [mvp_points]. *)
Record database := Database {
  mvp_counts : option counts_row;
  mvp_points : list point_row;
  mvp_points_cols : list Z;
  mvp_vantage_points : list vp_row;
  mvp_items : list item_row;
  mvp_query : list (Z * Z)
}.

Definition set_counts (c : option counts_row) (d : database) : database :=
  Database c (mvp_points d) (mvp_points_cols d) (mvp_vantage_points d)
           (mvp_items d) (mvp_query d).
Definition set_points (ps : list point_row) (d : database) : database :=
  Database (mvp_counts d) ps (mvp_points_cols d) (mvp_vantage_points d)
           (mvp_items d) (mvp_query d).
Definition set_points_cols (cs : list Z) (d : database) : database :=
  Database (mvp_counts d) (mvp_points d) cs (mvp_vantage_points d)
           (mvp_items d) (mvp_query d).
Definition set_vantage_points (vs : list vp_row) (d : database) : database :=
  Database (mvp_counts d) (mvp_points d) (mvp_points_cols d) vs
           (mvp_items d) (mvp_query d).
Definition set_items (its : list item_row) (d : database) : database :=
  Database (mvp_counts d) (mvp_points d) (mvp_points_cols d)
           (mvp_vantage_points d) its (mvp_query d).
Definition set_query (q : list (Z * Z)) (d : database) : database :=
  Database (mvp_counts d) (mvp_points d) (mvp_points_cols d)
           (mvp_vantage_points d) (mvp_items d) q.

(** The tables right after [str_init_tables] ran on a new file. *)
Definition empty_database : database := Database None [] [] [] [] [].

(** The rowid SQLite gives to a row inserted without one: one more than the
    largest in the table, 1 in an empty table. *)
Definition next_rowid (ids : list Z) : Z := 1 + foldr Z.max 0 ids.

(** ORDER BY [key] ASC, as a stable insertion sort: [order_by] inserts
    the rows from the last to the first, each before the rows of the same
    key that are already placed. *)
Fixpoint insert_by {A} (key : A → Z) (x : A) (l : list A) : list A :=
  match l with
  | [] => [x]
  | y :: l' => if key x <=? key y then x :: l else y :: insert_by key x l'
  end.

Fixpoint order_by {A} (key : A → Z) (l : list A) : list A :=
  match l with
  | [] => []
  | x :: l' => insert_by key x (order_by key l')
  end.

(** ** Errors *)

(** What a member function throws. A UNIQUE violation on
    [mvp_vantage_points.value] is the exception the comment on
    [insert_vantage_point_] announces; every other [SQLite::Exception] or
    [std::runtime_error] is a [StorageError]. [DistanceOverflow] and
    [InsufficientData] are the two remaining kinds of the error taxonomy. *)
Inductive error :=
  | DuplicateVantagePoint
  | DistanceOverflow
  | InsufficientData
  | StorageError.

Inductive result (A : Type) :=
  | Ok (a : A)
  | Throw (e : error).
Arguments Ok {A} a.
Arguments Throw {A} e.

(** ** Statements on the tables *)

(** [str_upd_count] with [$col] bound. *)
Inductive count_col := col_points | col_vantage_points | col_files.

Definition increment_count (c : count_col) (d : database) : database :=
  set_counts
    (match mvp_counts d with
     | Some r =>
         Some (match c with
               | col_points =>
                   CountsRow (n_points r + 1) (n_vantage_points r)
                             (n_parts r) (n_items r)
               | col_vantage_points =>
                   CountsRow (n_points r) (n_vantage_points r + 1)
                             (n_parts r) (n_items r)
               | col_files =>
                   CountsRow (n_points r) (n_vantage_points r)
                             (n_parts r) (n_items r + 1)
               end)
     | None => None
     end) d.

(** [str_sel_point_by_value], bound with [get_point_data] and
    [get_point_size]: for the empty vector the parameter is NULL, and
    [value = NULL] is true of no row. *)
Definition sel_point_by_value (v : point_type) (d : database) : option Z :=
  match v with
  | [] => None
  | _ :: _ => p_id <$> find (λ r, bool_decide (p_value r = v)) (mvp_points d)
  end.

(** [str_sel_all_points]. *)
Definition sel_all_points (d : database) : list (Z * point_type) :=
  (λ r, (p_id r, p_value r)) <$> mvp_points d.

(** [str_sel_vps] and [str_sel_vp_ids]. *)
Definition sel_vps (d : database) : list vp_row :=
  order_by vp_id (mvp_vantage_points d).
Definition sel_vp_ids (d : database) : list Z := vp_id <$> sel_vps d.

(** Preparing a statement that names the columns [d{id}], [id] in
    [vp_ids], fails when [mvp_points] lacks one of them. *)
Definition columns_exist (vp_ids : list Z) (d : database) : bool :=
  forallb (λ c, bool_decide (c ∈ mvp_points_cols d)) vp_ids.

(** The DEFAULT of a [d{vp_id}] column in [str_add_points_col]. *)
Definition points_col_default : Z := 0x7FFFFFFF.

(** The cells of a row inserted by the statement of [make_insert_point]
    compiled for [stmt], with [dists] bound to its parameters 2, 3, ...:
    a column of the statement gets the value bound to it (NULL when none
    was bound), every other column its DEFAULT. *)
Definition inserted_cells (stmt : list Z) (dists : list Z) (cols : list Z)
  : gmap Z Z :=
  list_to_map (zip stmt dists) ∪
  list_to_map ((λ c, (c, points_col_default))
                 <$> filter (λ c, c ∉ stmt) cols).

(** Executing that statement: binding more values than the statement has
    parameters throws, and so does a value that a row already holds, since
    [value] is UNIQUE in [mvp_points]; the empty vector is bound as NULL,
    which UNIQUE admits. Otherwise the row is appended and its id
    returned. *)
Definition exec_insert_point (stmt : list Z) (v : point_type)
    (dists : list Z) (d : database) : result (Z * database) :=
  if bool_decide (length stmt < length dists)%nat then Throw StorageError
  else if bool_decide (v ≠ [] ∧ v ∈ p_value <$> mvp_points d)
  then Throw StorageError
  else
    let id := next_rowid (p_id <$> mvp_points d) in
    let row := PointRow id v (inserted_cells stmt dists (mvp_points_cols d)) in
    Ok (id, set_points (mvp_points d ++ [row]) d).

(** [str_add_points_col]: ALTER TABLE ... ADD COLUMN d{vp_id} INTEGER
    DEFAULT 0x7FFFFFFF. Adding a column that exists is an error. *)
Definition exec_add_points_col (col : Z) (d : database) : result database :=
  if bool_decide (col ∈ mvp_points_cols d) then Throw StorageError
  else
    Ok (set_points_cols (mvp_points_cols d ++ [col])
         (set_points
            ((λ r, PointRow (p_id r) (p_value r)
                           (<[col := points_col_default]> (p_d r)))
               <$> mvp_points d) d)).

(** [str_upd_point]: UPDATE mvp_points SET d{col} = val WHERE id = id. *)
Definition exec_upd_point (col val id : Z) (d : database) : database :=
  set_points
    ((λ r, if bool_decide (p_id r = id)
           then PointRow (p_id r) (p_value r) (<[col := val]> (p_d r))
           else r)
       <$> mvp_points d) d.

(** [str_ins_vp]: [value] is UNIQUE in [mvp_vantage_points]. The empty
    vector is bound as NULL, and UNIQUE admits any number of NULLs. *)
Definition exec_ins_vp (v : point_type) (d : database) : result (Z * database) :=
  if bool_decide (v ≠ [] ∧ v ∈ vp_value <$> mvp_vantage_points d)
  then Throw DuplicateVantagePoint
  else
    let id := next_rowid (vp_id <$> mvp_vantage_points d) in
    Ok (id, set_vantage_points (mvp_vantage_points d ++ [VpRow id v]) d).

(** The WHERE clause of the statement of [make_partition_points]:
    (d{c} BETWEEN ? AND ?) for every column [c] of the statement, joined by
    AND. A comparison with NULL, or with a parameter left unbound, is not
    true. *)
Fixpoint between_all (stmt : list Z) (bounds : list (Z * Z)) (cells : gmap Z Z)
  : bool :=
  match stmt with
  | [] => true
  | c :: stmt' =>
      match bounds with
      | [] => false
      | (lo, hi) :: bounds' =>
          match cells !! c with
          | Some x => (lo <=? x) && (x <=? hi) && between_all stmt' bounds' cells
          | None => false
          end
      end
  end.

Definition exec_partition_points (stmt : list Z) (bounds : list (Z * Z))
    (d : database) : result (list (Z * point_type)) :=
  if bool_decide (length stmt < length bounds)%nat then Throw StorageError
  else
    Ok ((λ r, (p_id r, p_value r))
          <$> filter (λ r, between_all stmt bounds (p_d r) = true)
                     (mvp_points d)).

(** [str_ins_query]: [id] is the primary key of [temp.mvp_query]. *)
Definition exec_ins_query (id dist : Z) (d : database) : result database :=
  if bool_decide (id ∈ fst <$> mvp_query d) then Throw StorageError
  else Ok (set_query (mvp_query d ++ [(id, dist)]) d).

(** Modelled from the spec: the statements [get_file_by_path],
    [insert_file] and [update_file] used by [insert_item_] have no SQL text
    in the source. They look an item up by its key, create it with its
    point, and overwrite the point of an item that exists. *)
Definition get_file_by_path (path : item_type) (d : database) : option Z :=
  i_point_id <$> find (λ it, bool_decide (i_path it = path)) (mvp_items d).

Definition exec_insert_file (path : item_type) (point_id : Z) (d : database)
  : database :=
  set_items (mvp_items d ++ [ItemRow path point_id]) d.

Definition exec_update_file (path : item_type) (point_id : Z) (d : database)
  : database :=
  set_items
    ((λ it, if bool_decide (i_path it = path)
            then ItemRow (i_path it) point_id else it)
       <$> mvp_items d) d.

(** Modelled from the spec: the statement [get_files_by_query], of which
    the source binds only [$limit], has no SQL text in the source. It joins
    the working table against the items to recover item keys, orders them by
    distance ascending, ties in insertion order, and truncates to [limit],
    where 0 stands for no limit. *)
Definition get_files_by_query (limit : Z) (d : database) : list item_type :=
  let joined :=
    mvp_query d ≫= λ q,
      (λ it, (snd q, i_path it))
        <$> filter (λ it, i_point_id it = fst q) (mvp_items d) in
  let ordered := snd <$> order_by fst joined in
  if 0 <? limit then take (Z.to_nat limit) ordered else ordered.

(** Modelled from the spec: the statement [get_count] read by
    [find_vantage_point] has no SQL text in the source; it reads the row of
    [mvp_counts], of which the function takes the vantage-point count. *)
Definition get_count (d : database) : option counts_row := mvp_counts d.

(** ** The index engine *)

Module Impl.

(** The fields of [Database::Impl] that change: the connection, the cached
    vantage-point ids, and the two statements compiled on demand. A compiled
    statement is given by the list of vantage-point ids its text was
    generated from; [None] is the empty [stmt_ptr]. *)
Record state := State {
  db : database;
  vp_ids_ : list Z;
  insert_point : option (list Z);
  partition_points : option (list Z)
}.

Definition set_db (d : database) (s : state) : state :=
  State d (vp_ids_ s) (insert_point s) (partition_points s).

(** A member function: it returns or throws, and leaves a new state. *)
Definition M (A : Type) : Type := state → result A * state.

#[global] Instance M_ret : MRet M := λ A a s, (Ok a, s).
#[global] Instance M_bind : MBind M := λ A B f m s,
  match m s with
  | (Ok a, s') => f a s'
  | (Throw e, s') => (Throw e, s')
  end.

Definition throw {A} (e : error) : M A := λ s, (Throw e, s).

(** Reading the database, changing it, and running a statement that may
    fail. *)
Definition db_read {A} (f : database → A) : M A := λ s, (Ok (f (db s)), s).
Definition db_update (f : database → database) : M unit :=
  λ s, (Ok tt, set_db (f (db s)) s).
Definition db_exec {A} (f : database → result (A * database)) : M A :=
  λ s, match f (db s) with
       | Ok (a, d') => (Ok a, set_db d' s)
       | Throw e => (Throw e, s)
       end.
Definition db_exec_ (f : database → result database) : M unit :=
  λ s, match f (db s) with
       | Ok d' => (Ok tt, set_db d' s)
       | Throw e => (Throw e, s)
       end.

(** [SQLite::Transaction trans(db); ...; trans.commit();]: when the body
    throws, the destructor rolls the database back. The fields of the
    object keep what the body assigned to them. *)
Definition transaction {A} (body : M A) : M A := λ s,
  match body s with
  | (Ok a, s') => (Ok a, s')
  | (Throw e, s') => (Throw e, set_db (db s) s')
  end.

Fixpoint for_each {A} (l : list A) (body : A → M unit) : M unit :=
  match l with
  | [] => mret tt
  | x :: l' => body x ;; for_each l' body
  end.

Section WithDistance.

(** [Hash::distance], declared outside the source at hand. *)
Variable distance : point_type → point_type → Z.

(** [static_cast<int>(Hash::distance(p1, p2)); //TODO: check distance < max int] *)
Definition get_distance (p1 p2 : point_type) : Z := to_int32 (distance p1 p2).

(** The constructor: [init_tables] fills [mvp_counts] from the true counts
    when it is empty, creates the empty [temp.mvp_query] and loads the
    vantage-point ids; the two generated statements start empty. *)
Definition init_tables (d : database) : database * list Z :=
  let d1 :=
    match mvp_counts d with
    | Some _ => d
    | None =>
        set_counts
          (Some (CountsRow (Z.of_nat (length (mvp_points d)))
                           (Z.of_nat (length (mvp_vantage_points d)))
                           0
                           (Z.of_nat (length (mvp_items d))))) d
    end in
  (set_query [] d1, sel_vp_ids d1).

Definition new (d : database) : state :=
  let '(d', vp_ids) := init_tables d in State d' vp_ids None None.

Definition update_vp_ids (vp_ids : list Z) : M unit := λ s,
  if bool_decide (vp_ids_ s = vp_ids) then (Ok tt, s)
  else (Ok tt, State (db s) vp_ids None None).

(** [make_stmt] prepares the generated text against the database. *)
Definition make_insert_point (vp_ids : list Z) : M (list Z) := λ s,
  if columns_exist vp_ids (db s) then (Ok vp_ids, s)
  else (Throw StorageError, s).

Definition make_partition_points (vp_ids : list Z) : M (list Z) := λ s,
  if columns_exist vp_ids (db s) then (Ok vp_ids, s)
  else (Throw StorageError, s).

(** [if (!insert_point) insert_point = make_insert_point(vp_ids_);]
    followed by the use of [insert_point]. *)
Definition the_insert_point : M (list Z) := λ s,
  match insert_point s with
  | Some stmt => (Ok stmt, s)
  | None =>
      match make_insert_point (vp_ids_ s) s with
      | (Ok stmt, s') =>
          (Ok stmt, State (db s') (vp_ids_ s') (Some stmt) (partition_points s'))
      | (Throw e, s') => (Throw e, s')
      end
  end.

(** [if (!partition_points) partition_points = make_partition_points(vp_ids);]
    followed by the use of [partition_points]. *)
Definition the_partition_points (vp_ids : list Z) : M (list Z) := λ s,
  match partition_points s with
  | Some stmt => (Ok stmt, s)
  | None =>
      match make_partition_points vp_ids s with
      | (Ok stmt, s') =>
          (Ok stmt, State (db s') (vp_ids_ s') (insert_point s') (Some stmt))
      | (Throw e, s') => (Throw e, s')
      end
  end.

(** The distance from each vantage point to [p_value], in the order of the
    ids: [uint32_t d = get_distance(...)] pushed onto a
    [std::vector<int32_t>]. *)
Definition vp_dists_ (p_value : point_type) : M (list Z) :=
  vps ← db_read sel_vps;
  update_vp_ids (vp_id <$> vps) ;;
  mret ((λ vp, to_int32 (to_uint32 (get_distance (vp_value vp) p_value)))
          <$> vps).

Definition insert_point_ (p_value : point_type) : M Z :=
  found ← db_read (sel_point_by_value p_value);
  match found with
  | Some id => mret id
  | None =>
      vp_dists ← vp_dists_ p_value;
      stmt ← the_insert_point;
      id ← db_exec (exec_insert_point stmt p_value vp_dists);
      db_update (increment_count col_points) ;;
      mret id
  end.

Definition insert_item_ (point_id : Z) (item : item_type) : M unit :=
  found ← db_read (get_file_by_path item);
  match found with
  | Some old_id =>
      if bool_decide (old_id ≠ point_id)
      then db_update (exec_update_file item point_id)
      else mret tt
  | None =>
      db_update (exec_insert_file item point_id) ;;
      db_update (increment_count col_files)
  end.

Definition insert_vantage_point_ (vp_value : point_type) : M Z :=
  id ← db_exec (exec_ins_vp vp_value);
  db_update (increment_count col_vantage_points) ;;
  mret id.

(** The loop of [add_points_column_] over the rows the scan yields:
    [uint32_t d = get_distance(vp_value, p_value)] bound to [upd_point]. *)
Definition backfill (col : Z) (vp_value : point_type)
    (scan : list (Z * point_type)) : M unit :=
  for_each scan (λ '(id, p_value),
    db_update (exec_upd_point col
                 (to_uint32 (get_distance vp_value p_value)) id)).

Definition add_points_column_ (vp_id : Z) (vp_value : point_type) : M unit :=
  db_exec_ (exec_add_points_col vp_id) ;;
  scan ← db_read sel_all_points;
  backfill vp_id vp_value scan.

Definition insert (p_value : point_type) (item : item_type) : M unit :=
  transaction (
    point_id ← insert_point_ p_value;
    insert_item_ point_id item).

Definition add_vantage_point (vp_value : point_type) : M unit :=
  transaction (
    vp_id ← insert_vantage_point_ vp_value;
    add_points_column_ vp_id vp_value).

(** The two bounds [query] pushes for a vantage point, in [uint32_t]
    arithmetic. *)
Definition lower_bound (d radius : Z) : Z :=
  if d <=? radius then 0 else to_uint32 (d - radius).
Definition upper_bound (d radius : Z) : Z :=
  if d >=? to_uint32 (0xFFFFFFFF - radius) then 0xFFFFFFFF
  else to_uint32 (d + radius).

Definition query_bounds (pt : point_type) (radius : Z) (vps : list vp_row)
  : list (Z * Z) :=
  (λ vp, let d := to_uint32 (get_distance (vp_value vp) pt) in
         (lower_bound d radius, upper_bound d radius)) <$> vps.

Definition query (pt : point_type) (radius : Z) (limit : Z)
  : M (list item_type) :=
  transaction (
    vps ← db_read sel_vps;
    let vp_ids := vp_id <$> vps in
    let bounds := query_bounds pt radius vps in
    update_vp_ids vp_ids ;;
    db_update (set_query []) ;;
    stmt ← the_partition_points vp_ids;
    candidates ← db_exec (λ d,
      match exec_partition_points stmt bounds d with
      | Ok rows => Ok (rows, d)
      | Throw e => Throw e
      end);
    for_each candidates (λ '(id, value),
      db_exec_ (exec_ins_query id (to_uint32 (get_distance pt value)))) ;;
    db_read (get_files_by_query limit)).

(** [find_vantage_point] reads the vantage-point count, has two empty
    branches, commits, and ends without a [return] statement: [Ok None] is
    control reaching the closing brace with no value to return. *)
Definition find_vantage_point (sample_size : Z) : M (option point_type) :=
  transaction (
    row ← db_read get_count;
    match row with
    | Some r =>
        let num_vantage_points := n_vantage_points r in
        if 0 <? num_vantage_points then mret None else mret None
    | None => throw StorageError
    end).

(** ** Sequences of operations *)

Inductive op :=
  | Insert (p_value : point_type) (item : item_type)
  | AddVantagePoint (vp_value : point_type)
  | Query (pt : point_type) (radius limit : Z)
  | FindVantagePoint (sample_size : Z).

(** One call, whether it returns or throws, and the state it leaves. *)
Definition step (s : state) (o : op) : state :=
  match o with
  | Insert p_value item => snd (insert p_value item s)
  | AddVantagePoint vp_value => snd (add_vantage_point vp_value s)
  | Query pt radius limit => snd (query pt radius limit s)
  | FindVantagePoint sample_size => snd (find_vantage_point sample_size s)
  end.

Definition run (ops : list op) (s : state) : state := fold_left step ops s.

(** ** Invariants *)

(** A cached statement, when there is one, was generated from the cached
    list of vantage-point ids. *)
Definition cache_ok (s : state) : Prop :=
  (∀ stmt, insert_point s = Some stmt → stmt = vp_ids_ s) ∧
  (∀ stmt, partition_points s = Some stmt → stmt = vp_ids_ s).

(** The embedding of a row is complete: one cell per vantage point, holding
    the distance from that vantage point to the row's value. *)
Definition embedding_complete (d : database) (r : point_row) : Prop :=
  dom (p_d r) = list_to_set (vp_id <$> mvp_vantage_points d) ∧
  ∀ vp, vp ∈ mvp_vantage_points d →
        p_d r !! vp_id vp = Some (distance (vp_value vp) (p_value r)).

(** Ids are distinct, and [mvp_points] has the column [d{id}] exactly for
    the ids of the vantage points. *)
Definition tables_ok (d : database) : Prop :=
  NoDup (p_id <$> mvp_points d) ∧
  NoDup (vp_id <$> mvp_vantage_points d) ∧
  (∀ c, c ∈ mvp_points_cols d ↔ c ∈ vp_id <$> mvp_vantage_points d).

Definition db_ok (d : database) : Prop :=
  tables_ok d ∧ ∀ r, r ∈ mvp_points d → embedding_complete d r.

(** What the loop of [add_points_column_] over [scan] makes of a row [r]:
    [r'] keeps id, value and the other cells; its cell [col] is untouched
    when the scan does not yield the row's id, and otherwise holds the
    distance computed for an entry of the scan with that id. *)
Definition backfilled (col : Z) (v : point_type) (scan : list (Z * point_type))
    (r r' : point_row) : Prop :=
  p_id r' = p_id r ∧ p_value r' = p_value r ∧
  (∀ c, c ≠ col → p_d r' !! c = p_d r !! c) ∧
  (p_id r ∉ fst <$> scan → p_d r' !! col = p_d r !! col) ∧
  (p_id r ∈ fst <$> scan →
   ∃ w, (p_id r, w) ∈ scan ∧
        p_d r' !! col = Some (to_uint32 (get_distance v w))).

(** The row is a candidate of a radius query: for every vantage point its
    cell lies between the two bounds computed for that vantage point. *)
Definition is_candidate (pt : point_type) (radius : Z) (d : database)
    (r : point_row) : bool :=
  between_all (sel_vp_ids d) (query_bounds pt radius (sel_vps d)) (p_d r).

End WithDistance.

(** ** Weakest preconditions *)

(** Run from [s], [m] returns a value and a state in [Q], or throws and
    leaves a state in [E]. *)
Definition wp {A} (m : M A) (Q : A → state → Prop)
    (E : error → state → Prop) (s : state) : Prop :=
  match m s with
  | (Ok a, s') => Q a s'
  | (Throw e, s') => E e s'
  end.

(** [m] keeps [I], whether it returns or throws. *)
Definition preserves {A} (I : state → Prop) (m : M A) : Prop :=
  ∀ s, I s → wp m (λ _, I) (λ _, I) s.

End Impl.

(** ** A distance to run the engine with *)

(** The Hamming distance between 64-bit fingerprints, the size of the
    default block hash: the number of bits in which the first eight bytes
    of the two values differ. *)
Definition bit_sum (bits : list nat) (n : N) : Z :=
  foldr (λ i acc, (if N.testbit n (N.of_nat i) then 1 else 0) + acc) 0 bits.

Definition fingerprint (a : point_type) : N :=
  foldr (λ x acc, (Byte.to_N x + 256 * acc)%N) 0%N (take 8 a).

Definition hamming64 (a b : point_type) : Z :=
  bit_sum (seq 0 64) (N.lxor (fingerprint a) (fingerprint b)).

(** A distance function that leaves the range of [int]. *)
Definition far_apart (a b : point_type) : Z :=
  if bool_decide (a = b) then 0 else 2 ^ 31.

(** * Properties *)

(** ** Integer conversions *)

Lemma to_uint32_small x : 0 ≤ x ≤ UINT32_MAX → to_uint32 x = x.
Proof.
  unfold to_uint32, UINT32_MAX. intros H. apply Z.mod_small. lia.
Qed.

Lemma to_int32_small x : 0 ≤ x ≤ INT32_MAX → to_int32 x = x.
Proof.
  unfold to_int32, INT32_MAX. intros H.
  rewrite Z.mod_small by lia. lia.
Qed.

Lemma to_int32_le_max x : to_int32 x ≤ 0x7FFFFFFF.
Proof.
  unfold to_int32. pose proof (Z.mod_pos_bound (x + 2 ^ 31) (2 ^ 32)). lia.
Qed.

Lemma to_uint32_to_int32 x : to_uint32 (to_int32 x) = to_uint32 x.
Proof.
  unfold to_uint32, to_int32.
  rewrite <- Zminus_mod_idemp_l.
  rewrite Z.mod_mod by lia.
  rewrite Zminus_mod_idemp_l. f_equal. lia.
Qed.

Lemma to_uint32_range x : 0 ≤ to_uint32 x ≤ UINT32_MAX.
Proof.
  unfold to_uint32, UINT32_MAX.
  pose proof (Z.mod_pos_bound x (2 ^ 32)). lia.
Qed.

Lemma lower_bound_clamped d radius :
  0 ≤ d ≤ UINT32_MAX → 0 ≤ radius ≤ UINT32_MAX →
  Impl.lower_bound d radius = Z.max 0 (d - radius).
Proof.
  intros Hd Hr. unfold Impl.lower_bound.
  destruct (Z.leb_spec d radius); [lia|].
  rewrite to_uint32_small by lia. lia.
Qed.

Lemma upper_bound_clamped d radius :
  0 ≤ d ≤ UINT32_MAX → 0 ≤ radius ≤ UINT32_MAX →
  Impl.upper_bound d radius = Z.min UINT32_MAX (d + radius).
Proof.
  intros Hd Hr. unfold Impl.upper_bound.
  change 0xFFFFFFFF with UINT32_MAX.
  rewrite (to_uint32_small (UINT32_MAX - radius)) by lia.
  destruct (Z.geb_spec d (UINT32_MAX - radius)); [lia|].
  rewrite to_uint32_small by lia. lia.
Qed.

(** ** Vantage-point registration *)

Lemma set_db_same (s : Impl.state) : Impl.set_db (Impl.db s) s = s.
Proof. by destruct s. Qed.

Section Registration.

Variable distance : point_type → point_type → Z.

(** Registering a value other than the empty one that is already in the
    vantage-point table throws [DuplicateVantagePoint], and the whole state
    of the engine, its four tables and counters included, is the one before
    the call. *)
Lemma add_vantage_point_duplicate (s : Impl.state) (v : point_type) :
  v ≠ [] →
  v ∈ vp_value <$> mvp_vantage_points (Impl.db s) →
  Impl.add_vantage_point distance v s = (Throw DuplicateVantagePoint, s).
Proof.
  intros Hv Hdup.
  unfold Impl.add_vantage_point, Impl.transaction, Impl.insert_vantage_point_.
  unfold mbind, Impl.M_bind, Impl.db_exec, exec_ins_vp.
  rewrite bool_decide_eq_true_2 by done.
  by rewrite set_db_same.
Qed.

End Registration.

Lemma add_vantage_point_duplicate_witness :
  let s := Impl.run hamming64 [Impl.AddVantagePoint [x00]]
                    (Impl.new empty_database) in
  Impl.add_vantage_point hamming64 [x00] s = (Throw DuplicateVantagePoint, s).
Proof.
  intros s. apply (add_vantage_point_duplicate hamming64 s [x00]).
  - discriminate.
  - vm_compute. apply list_elem_of_here.
Defined.

(** ** The new column and its backfill *)

Section Backfill.

Variable distance : point_type → point_type → Z.

Lemma backfill_cons col v id w scan s :
  Impl.backfill distance col v ((id, w) :: scan) s
  = Impl.backfill distance col v scan
      (Impl.set_db
         (exec_upd_point col (to_uint32 (Impl.get_distance distance v w)) id
                         (Impl.db s)) s).
Proof. reflexivity. Qed.

Lemma backfill_spec col v scan : ∀ s,
  ∃ rows', Impl.backfill distance col v scan s
           = (Ok tt, Impl.set_db (set_points rows' (Impl.db s)) s) ∧
           Forall2 (Impl.backfilled distance col v scan)
                   (mvp_points (Impl.db s)) rows'.
Proof.
  induction scan as [|[id w] scan IH]; intros s.
  - exists (mvp_points (Impl.db s)). split.
    + destruct s as [[] ? ? ?]; reflexivity.
    + apply Forall_Forall2_diag, Forall_forall. intros r _.
      repeat split; try done. intros H. by apply elem_of_nil in H.
  - rewrite backfill_cons.
    destruct (IH (Impl.set_db
                    (exec_upd_point col
                       (to_uint32 (Impl.get_distance distance v w)) id
                       (Impl.db s)) s)) as (rows' & -> & Hall).
    exists rows'. split; [by destruct s as [[] ? ? ?]|].
    change (Forall2 (Impl.backfilled distance col v scan)
              ((λ r, if bool_decide (p_id r = id)
                     then PointRow (p_id r) (p_value r)
                            (<[col := to_uint32 (Impl.get_distance distance v w)]>
                               (p_d r))
                     else r) <$> mvp_points (Impl.db s)) rows') in Hall.
    rewrite Forall2_fmap_l in Hall.
    eapply Forall2_impl; [exact Hall|].
    intros r r' (Hid & Hval & Hother & Hout & Hin). cbn in *.
    case_bool_decide as Hr; cbn in *.
    + repeat split; [done|done|..].
      * intros c Hc. rewrite Hother by done. by rewrite lookup_insert_ne.
      * intros Hn. exfalso. apply Hn. rewrite Hr. apply list_elem_of_here.
      * intros _. destruct (decide (p_id r ∈ fst <$> scan)) as [Hs|Hs].
        -- destruct (Hin Hs) as (w' & Hw' & Hc). exists w'. split; [|done].
           by apply list_elem_of_further.
        -- exists w. split; [rewrite Hr; apply list_elem_of_here|].
           rewrite (Hout Hs). by rewrite lookup_insert_eq.
    + repeat split; [done|done|done|..].
      * intros Hn. apply Hout. intros Hs. apply Hn.
        by apply list_elem_of_further.
      * intros Hs. apply elem_of_cons in Hs as [Hs|Hs]; [done|].
        destruct (Hin Hs) as (w' & Hw' & Hc). exists w'. split; [|done].
        by apply list_elem_of_further.
Qed.

Lemma exec_add_points_col_rows col d d' :
  exec_add_points_col col d = Ok d' →
  (col ∉ mvp_points_cols d) ∧
  d' = set_points_cols (mvp_points_cols d ++ [col])
         (set_points
            ((λ r, PointRow (p_id r) (p_value r)
                            (<[col := points_col_default]> (p_d r)))
               <$> mvp_points d) d).
Proof.
  unfold exec_add_points_col. case_bool_decide; [done|].
  intros [= <-]. done.
Qed.

(** The loop run over any list of rows after the column was added: a row
    the list does not name still reads [0x7FFFFFFF], and a row it names
    reads a distance computed by the loop. No row is lost. *)
Lemma backfill_over_any_scan (col : Z) (v : point_type) (d d' : database) :
  exec_add_points_col col d = Ok d' →
  p_id <$> mvp_points d' = p_id <$> mvp_points d ∧
  (∀ r, r ∈ mvp_points d' → p_d r !! col = Some 0x7FFFFFFF) ∧
  ∀ (scan : list (Z * point_type)) (s : Impl.state),
    Impl.db s = d' →
    let s' := snd (Impl.backfill distance col v scan s) in
    p_id <$> mvp_points (Impl.db s') = p_id <$> mvp_points d ∧
    ∀ r, r ∈ mvp_points (Impl.db s') →
         (p_id r ∉ fst <$> scan → p_d r !! col = Some 0x7FFFFFFF) ∧
         (p_id r ∈ fst <$> scan →
          ∃ w, (p_id r, w) ∈ scan ∧
               p_d r !! col
               = Some (to_uint32 (Impl.get_distance distance v w))).
Proof.
  intros Hadd. apply exec_add_points_col_rows in Hadd as [Hfresh ->].
  split; [|split].
  - cbn. by rewrite <- list_fmap_compose.
  - cbn. intros r Hr. apply list_elem_of_fmap in Hr as (r0 & -> & _).
    cbn. by rewrite lookup_insert_eq.
  - intros scan s Hdb s'. subst s'.
    destruct (backfill_spec col v scan s) as (rows' & -> & Hall).
    rewrite Hdb in Hall. cbn in Hall |- *.
    rewrite Forall2_fmap_l in Hall. split.
    + clear -Hall. induction Hall as [|r r' l l' (Hid & _) _ IH]; [done|].
      cbn in *. by rewrite Hid, IH.
    + intros r' Hr'.
      apply list_elem_of_lookup in Hr' as [i Hi].
      destruct (Forall2_lookup_r _ _ _ i r' Hall Hi)
        as (r & _ & Hid & _ & _ & Hout & Hin).
      cbn in *. rewrite Hid. split.
      * intros Hn. rewrite (Hout Hn). by rewrite lookup_insert_eq.
      * intros Hs. destruct (Hin Hs) as (w & Hw & Hc). by exists w.
Qed.

End Backfill.

Lemma backfill_over_any_scan_witness :
  let d := Impl.db (Impl.run hamming64 [Impl.Insert [x00] "a"; Impl.Insert [x03] "b"]
                             (Impl.new empty_database)) in
  ∃ d', exec_add_points_col 1 d = Ok d' ∧
        ∀ r, r ∈ mvp_points d' → p_d r !! 1 = Some 0x7FFFFFFF.
Proof.
  intros d. eexists. split; [vm_compute; reflexivity|].
  refine (proj1 (proj2 (backfill_over_any_scan hamming64 1 [x00] d _ _))).
  vm_compute; reflexivity.
Defined.

(** ** Rules of the weakest-precondition calculus *)

Section WpRules.

Context {A B : Type}.
Implicit Types (Q : A → Impl.state → Prop) (E : error → Impl.state → Prop).

Lemma wp_ret (a : A) Q E s : Impl.wp (mret a) Q E s ↔ Q a s.
Proof. reflexivity. Qed.

Lemma wp_throw (e : error) Q E s : Impl.wp (Impl.throw e) Q E s ↔ E e s.
Proof. reflexivity. Qed.

Lemma wp_bind (m : Impl.M A) (f : A → Impl.M B) (Q : B → Impl.state → Prop) E s :
  Impl.wp (m ≫= f) Q E s ↔ Impl.wp m (λ a s', Impl.wp (f a) Q E s') E s.
Proof.
  unfold Impl.wp, mbind, Impl.M_bind. by destruct (m s) as [[a|e] s'].
Qed.

Lemma wp_mono (m : Impl.M A) Q Q' E E' s :
  (∀ a s', Q a s' → Q' a s') → (∀ e s', E e s' → E' e s') →
  Impl.wp m Q E s → Impl.wp m Q' E' s.
Proof.
  unfold Impl.wp. intros HQ HE. destruct (m s) as [[a|e] s']; auto.
Qed.

Lemma wp_db_read (f : database → A) Q E s :
  Impl.wp (Impl.db_read f) Q E s ↔ Q (f (Impl.db s)) s.
Proof. reflexivity. Qed.

Lemma wp_db_exec (f : database → result (A * database)) Q E s :
  Impl.wp (Impl.db_exec f) Q E s ↔
  match f (Impl.db s) with
  | Ok (a, d') => Q a (Impl.set_db d' s)
  | Throw e => E e s
  end.
Proof.
  unfold Impl.wp, Impl.db_exec. by destruct (f (Impl.db s)) as [[a d']|e].
Qed.

Lemma wp_transaction (m : Impl.M A) Q E s :
  Impl.wp (Impl.transaction m) Q E s ↔
  Impl.wp m Q (λ e s', E e (Impl.set_db (Impl.db s) s')) s.
Proof.
  unfold Impl.wp, Impl.transaction. by destruct (m s) as [[a|e] s'].
Qed.

Lemma wp_returns (m : Impl.M A) Q E s a s' :
  m s = (Ok a, s') → Impl.wp m Q E s → Q a s'.
Proof. unfold Impl.wp. by intros ->. Qed.

End WpRules.

Lemma wp_db_update (f : database → database) Q E s :
  Impl.wp (Impl.db_update f) Q E s ↔ Q tt (Impl.set_db (f (Impl.db s)) s).
Proof. reflexivity. Qed.

Lemma wp_db_exec_ (f : database → result database) Q E s :
  Impl.wp (Impl.db_exec_ f) Q E s ↔
  match f (Impl.db s) with
  | Ok d' => Q tt (Impl.set_db d' s)
  | Throw e => E e s
  end.
Proof.
  unfold Impl.wp, Impl.db_exec_. by destruct (f (Impl.db s)) as [d'|e].
Qed.

Lemma wp_update_vp_ids vp_ids Q E s :
  Impl.wp (Impl.update_vp_ids vp_ids) Q E s ↔
  Q tt (if bool_decide (Impl.vp_ids_ s = vp_ids) then s
        else Impl.State (Impl.db s) vp_ids None None).
Proof.
  unfold Impl.wp, Impl.update_vp_ids. by case_bool_decide.
Qed.

(** ** Inserting the same pair twice *)

Section Idempotence.

Variable distance : point_type → point_type → Z.

Lemma find_app_None {X} (f : X → bool) l x :
  find f l = None → f x = true → find f (l ++ [x]) = Some x.
Proof.
  induction l as [|y l IH]; cbn; intros Hl Hx; [by rewrite Hx|].
  destruct (f y); [done|]. by apply IH.
Qed.

Lemma sel_point_by_value_inserted stmt v dists d id d' :
  v ≠ [] →
  sel_point_by_value v d = None →
  exec_insert_point stmt v dists d = Ok (id, d') →
  sel_point_by_value v (increment_count col_points d') = Some id.
Proof.
  unfold exec_insert_point, sel_point_by_value.
  intros Hv Hnone. destruct v as [|b v]; [done|].
  case_bool_decide; [done|]. case_bool_decide; [done|].
  intros [= <- <-]. cbn.
  destruct (find _ (mvp_points d)) eqn:Hf; [done|].
  rewrite (find_app_None _ _ _ Hf); [done|].
  cbn. by apply bool_decide_eq_true_2.
Qed.

Lemma insert_point__found v s :
  v ≠ [] →
  Impl.wp (Impl.insert_point_ distance v)
    (λ id s', sel_point_by_value v (Impl.db s') = Some id)
    (λ _ _, True) s.
Proof.
  intros Hv. unfold Impl.insert_point_.
  rewrite wp_bind, wp_db_read.
  destruct (sel_point_by_value v (Impl.db s)) as [id|] eqn:Hsel.
  { by rewrite wp_ret. }
  rewrite wp_bind. unfold Impl.vp_dists_.
  rewrite wp_bind, wp_db_read, wp_bind, wp_update_vp_ids, wp_ret.
  set (s1 := if bool_decide _ then _ else _).
  assert (Impl.db s1 = Impl.db s) as Hdb1.
  { subst s1. by case_bool_decide. }
  rewrite wp_bind. unfold Impl.wp at 1.
  unfold Impl.the_insert_point.
  destruct (Impl.insert_point s1) as [stmt|]; cbn.
  - rewrite wp_bind, wp_db_exec, Hdb1.
    destruct (exec_insert_point _ _ _ _) as [[id d']|e] eqn:Hex; [|done].
    rewrite wp_bind, wp_db_update, wp_ret. cbn.
    by eapply sel_point_by_value_inserted.
  - unfold Impl.make_insert_point. destruct (columns_exist _ _); [|done].
    cbn. rewrite wp_bind, wp_db_exec. cbn. rewrite Hdb1.
    destruct (exec_insert_point _ _ _ _) as [[id d']|e] eqn:Hex; [|done].
    rewrite wp_bind, wp_db_update, wp_ret. cbn.
    by eapply sel_point_by_value_inserted.
Qed.

Lemma find_update_file path point_id its :
  is_Some (find (λ it, bool_decide (i_path it = path)) its) →
  i_point_id <$>
    find (λ it, bool_decide (i_path it = path))
         ((λ it, if bool_decide (i_path it = path)
                 then ItemRow (i_path it) point_id else it) <$> its)
  = Some point_id.
Proof.
  induction its as [|it its IH]; cbn; [by intros [? ?]|].
  case_bool_decide as Hp; cbn.
  - intros _. by rewrite bool_decide_eq_true_2.
  - rewrite bool_decide_eq_false_2 by done. apply IH.
Qed.

Lemma insert_item__resolves point_id item s :
  Impl.wp (Impl.insert_item_ point_id item)
    (λ _ s', get_file_by_path item (Impl.db s') = Some point_id ∧
             mvp_points (Impl.db s') = mvp_points (Impl.db s))
    (λ _ _, False) s.
Proof.
  unfold Impl.insert_item_. rewrite wp_bind, wp_db_read.
  destruct (get_file_by_path item (Impl.db s)) as [old_id|] eqn:Hget.
  - case_bool_decide as Hold.
    + rewrite wp_db_update. split; [|done].
      unfold get_file_by_path in *. cbn. apply find_update_file.
      by destruct (find _ _).
    + rewrite wp_ret. split; [|done].
      destruct (decide (old_id = point_id)) as [->|]; [done|]. by destruct Hold.
  - rewrite wp_bind, wp_db_update, wp_db_update. split; [|done].
    unfold get_file_by_path in *. cbn.
    destruct (find _ (mvp_items (Impl.db s))) eqn:Hf; [done|].
    rewrite (find_app_None _ _ _ Hf); [done|].
    cbn. by apply bool_decide_eq_true_2.
Qed.

Lemma insert_resolves v item s :
  v ≠ [] →
  Impl.wp (Impl.insert distance v item)
    (λ _ s', ∃ id, sel_point_by_value v (Impl.db s') = Some id ∧
                   get_file_by_path item (Impl.db s') = Some id)
    (λ _ _, True) s.
Proof.
  intros Hv. unfold Impl.insert. rewrite wp_transaction, wp_bind.
  eapply wp_mono; [| |by apply insert_point__found]; [|done].
  intros id s1 Hsel. cbn beta.
  eapply wp_mono; [| |apply insert_item__resolves]; [|done].
  intros _ s2 [Hget Hpts]. exists id. split; [|done].
  unfold sel_point_by_value in *. by rewrite Hpts.
Qed.

Lemma insert_again v item id s :
  sel_point_by_value v (Impl.db s) = Some id →
  get_file_by_path item (Impl.db s) = Some id →
  Impl.insert distance v item s = (Ok tt, s).
Proof.
  intros Hsel Hget.
  unfold Impl.insert, Impl.transaction, Impl.insert_point_, Impl.insert_item_.
  unfold mbind, Impl.M_bind, Impl.db_read. rewrite Hsel. cbn. rewrite Hget.
  by rewrite bool_decide_eq_false_2 by (by intros []).
Qed.

(** When [insert] has returned for a pair whose value is not the empty
    one, a second [insert] of the same pair returns and leaves the engine
    exactly as the first call left it: the point table, the item table and
    the counters of points and items are the same. *)
Lemma insert_twice (v : point_type) (item : item_type) (s s1 : Impl.state) :
  v ≠ [] →
  Impl.insert distance v item s = (Ok tt, s1) →
  Impl.insert distance v item s1 = (Ok tt, s1).
Proof.
  intros Hv Hfirst.
  destruct (wp_returns _ _ _ _ _ _ Hfirst (insert_resolves v item s Hv))
    as (id & Hsel & Hget).
  by eapply insert_again.
Qed.

End Idempotence.

Lemma insert_twice_witness :
  let s := Impl.new empty_database in
  let s1 := snd (Impl.insert hamming64 [x00] "a" s) in
  mvp_counts (Impl.db s1) = Some (CountsRow 1 0 0 1) ∧
  Impl.insert hamming64 [x00] "a" s1 = (Ok tt, s1).
Proof.
  intros s s1. split; [reflexivity|].
  apply (insert_twice hamming64 [x00] "a" s s1); [discriminate|reflexivity].
Defined.

(** ** The cache of compiled statements *)

Section Cache.

Variable distance : point_type → point_type → Z.

Lemma cache_ok_set_db d s : Impl.cache_ok s → Impl.cache_ok (Impl.set_db d s).
Proof. by destruct s. Qed.

Lemma cache_ok_new d : Impl.cache_ok (Impl.new d).
Proof. unfold Impl.new. cbn. by split. Qed.

Lemma cache_ok_partition d l s :
  Impl.cache_ok s → Impl.vp_ids_ s = l →
  Impl.cache_ok (Impl.State d (Impl.vp_ids_ s) (Impl.insert_point s) (Some l)).
Proof.
  intros [Hins _] <-. split; cbn; [done|]. by intros stmt [= <-].
Qed.

Lemma cache_ok_insert d s :
  Impl.cache_ok s →
  Impl.cache_ok (Impl.State d (Impl.vp_ids_ s) (Some (Impl.vp_ids_ s))
                            (Impl.partition_points s)).
Proof.
  intros [_ Hpart]. split; cbn; [|done]. by intros stmt [= <-].
Qed.

(** [update_vp_ids]: afterwards the cached list is the one passed in, and
    a statement generated from another list is gone. *)
Lemma update_vp_ids_spec vp_ids s :
  Impl.cache_ok s →
  Impl.wp (Impl.update_vp_ids vp_ids)
    (λ _ s', Impl.cache_ok s' ∧ Impl.vp_ids_ s' = vp_ids ∧
             Impl.db s' = Impl.db s ∧
             (Impl.vp_ids_ s ≠ vp_ids →
              Impl.insert_point s' = None ∧ Impl.partition_points s' = None))
    (λ _ _, False) s.
Proof.
  intros Hok. rewrite wp_update_vp_ids. case_bool_decide as Heq; cbn.
  - split; [done|]. split; [done|]. split; [done|]. by intros [].
  - split; [by split|]. by repeat split.
Qed.

(** The statement [insert_point_] goes on to execute was generated from
    the cached list, and it is the one left in the cache. *)
Lemma the_insert_point_spec s :
  Impl.cache_ok s →
  Impl.wp Impl.the_insert_point
    (λ stmt s', stmt = Impl.vp_ids_ s ∧
                s' = Impl.State (Impl.db s) (Impl.vp_ids_ s)
                                (Some (Impl.vp_ids_ s))
                                (Impl.partition_points s))
    (λ _ s', s' = s ∧ columns_exist (Impl.vp_ids_ s) (Impl.db s) = false) s.
Proof.
  intros [Hins _]. unfold Impl.wp, Impl.the_insert_point.
  destruct (Impl.insert_point s) as [stmt|] eqn:Hstmt.
  - rewrite (Hins stmt eq_refl) in *. split; [done|].
    destruct s; cbn in *. by rewrite Hstmt.
  - unfold Impl.make_insert_point. by destruct (columns_exist _ _).
Qed.

Lemma the_partition_points_spec vp_ids s :
  Impl.cache_ok s → Impl.vp_ids_ s = vp_ids →
  Impl.wp (Impl.the_partition_points vp_ids)
    (λ stmt s', stmt = vp_ids ∧
                s' = Impl.State (Impl.db s) (Impl.vp_ids_ s)
                                (Impl.insert_point s) (Some vp_ids))
    (λ _ s', s' = s ∧ columns_exist vp_ids (Impl.db s) = false) s.
Proof.
  intros [_ Hpart] Hids. unfold Impl.wp, Impl.the_partition_points.
  destruct (Impl.partition_points s) as [stmt|] eqn:Hstmt.
  - rewrite (Hpart stmt eq_refl), Hids in *. split; [done|].
    destruct s; cbn in *. by rewrite Hstmt, Hids.
  - unfold Impl.make_partition_points. by destruct (columns_exist _ _).
Qed.

(** The loop of [query] that fills [temp.mvp_query]. *)
Lemma ins_query_loop pt cands : ∀ s,
  Impl.wp
    (Impl.for_each cands (λ '(id, value),
       Impl.db_exec_
         (exec_ins_query id (to_uint32 (Impl.get_distance distance pt value)))))
    (λ _ s',
       s' = Impl.set_db
              (set_query
                 (mvp_query (Impl.db s) ++
                  ((λ c, (fst c, to_uint32 (Impl.get_distance distance pt (snd c))))
                     <$> cands))
                 (Impl.db s)) s)
    (λ _ s', (∃ d', s' = Impl.set_db d' s) ∧
             ¬ NoDup ((fst <$> mvp_query (Impl.db s)) ++ (fst <$> cands))) s.
Proof.
  induction cands as [|[id value] cands IH]; intros s.
  - cbn [Impl.for_each]. rewrite wp_ret. cbn. rewrite app_nil_r.
    by destruct s as [[] ? ? ?].
  - cbn [Impl.for_each]. rewrite wp_bind, wp_db_exec_.
    unfold exec_ins_query. case_bool_decide as Hdup.
    { split; [exists (Impl.db s); by rewrite set_db_same|].
      intros (_ & Hdisj & _)%NoDup_app.
      apply (Hdisj id Hdup), list_elem_of_here. }
    eapply wp_mono; [| |apply IH].
    + intros _ s' ->. destruct s as [[] ? ? ?]; cbn.
      by rewrite <- app_assoc.
    + intros _ s' [[d' ->] Hnd]. split; [exists d'; by destruct s|].
      cbn in Hnd. by rewrite fmap_app, <- app_assoc in Hnd.
Qed.

Lemma length_query_bounds pt radius (vps : list vp_row) :
  length (Impl.query_bounds distance pt radius vps) = length (vp_id <$> vps).
Proof. unfold Impl.query_bounds. by rewrite !length_fmap. Qed.

(** What [query] does from a state with a sound cache: the working table
    receives the candidates with their distance to the query point, the
    result is read off it, and the partition statement left in the cache
    is the one generated from the ids just read from the database. *)
Lemma query_spec pt radius limit s :
  Impl.cache_ok s →
  Impl.wp (Impl.query distance pt radius limit)
    (λ res s',
       let d := Impl.db s in
       let q := (λ r, (p_id r,
                       to_uint32 (Impl.get_distance distance pt (p_value r))))
                  <$> filter (λ r, Impl.is_candidate distance pt radius d r = true)
                             (mvp_points d) in
       Impl.db s' = set_query q d ∧
       res = get_files_by_query limit (set_query q d) ∧
       Impl.vp_ids_ s' = sel_vp_ids d ∧
       Impl.partition_points s' = Some (sel_vp_ids d) ∧
       Impl.cache_ok s')
    (λ _ s',
       Impl.db s' = Impl.db s ∧ Impl.cache_ok s' ∧
       (columns_exist (sel_vp_ids (Impl.db s)) (Impl.db s) = false ∨
        ¬ NoDup (p_id <$> filter (λ r, Impl.is_candidate distance pt radius
                                         (Impl.db s) r = true)
                                 (mvp_points (Impl.db s))))) s.
Proof.
  intros Hok. unfold Impl.query.
  rewrite wp_transaction, wp_bind, wp_db_read. cbn zeta.
  rewrite wp_bind.
  eapply wp_mono; [| |apply (update_vp_ids_spec _ _ Hok)]; [|done].
  intros _ s1 (Hok1 & Hids1 & Hdb1 & _). cbn beta.
  rewrite wp_bind, wp_db_update, wp_bind.
  eapply wp_mono;
    [| |apply the_partition_points_spec;
        [apply cache_ok_set_db, Hok1|by destruct s1]].
  2:{ intros e s2 [-> Hcols]. cbn. split; [done|].
      split; [by apply cache_ok_set_db|]. left.
      unfold columns_exist in *. cbn in Hcols. by rewrite Hdb1 in Hcols. }
  intros stmt s2 [-> ->]. cbn beta.
  rewrite wp_bind, wp_db_exec. cbn [Impl.db Impl.set_db].
  unfold exec_partition_points.
  rewrite bool_decide_eq_false_2
    by (rewrite length_query_bounds; lia).
  rewrite wp_bind.
  eapply wp_mono; [| |apply ins_query_loop].
  2:{ intros e s3 [[d' ->] Hnd]. cbn. split; [done|]. split.
      { do 3 apply cache_ok_set_db. by apply cache_ok_partition. }
      right. cbn in Hnd. rewrite <- list_fmap_compose, Hdb1 in Hnd.
      exact Hnd. }
  intros _ s3 ->. rewrite wp_db_read. cbn.
  rewrite <- list_fmap_compose. unfold Impl.is_candidate, sel_vp_ids.
  rewrite Hdb1. cbn. split; [done|]. split; [done|]. split; [done|].
  split; [done|]. rewrite <- Hids1.
  apply (cache_ok_partition _ _ s1 Hok1 eq_refl).
Qed.

(** *** The cache invariant is kept by every member function *)

Lemma preserves_ret {A} I (a : A) : Impl.preserves I (mret a).
Proof. by intros s Hs. Qed.

Lemma preserves_throw {A} I e : Impl.preserves I (@Impl.throw A e).
Proof. by intros s Hs. Qed.

Lemma preserves_bind {A B} I (m : Impl.M A) (f : A → Impl.M B) :
  Impl.preserves I m → (∀ a, Impl.preserves I (f a)) →
  Impl.preserves I (m ≫= f).
Proof.
  intros Hm Hf s Hs. rewrite wp_bind.
  eapply wp_mono; [| |by apply Hm]; [|done].
  intros a s' Hs'. by apply Hf.
Qed.

Lemma preserves_for_each {A} I (l : list A) body :
  (∀ x, Impl.preserves I (body x)) → Impl.preserves I (Impl.for_each l body).
Proof.
  intros Hbody. induction l as [|x l IH]; cbn [Impl.for_each].
  - apply preserves_ret.
  - apply preserves_bind; [apply Hbody|]. by intros _.
Qed.

Lemma cache_ok_db_read {A} (f : database → A) :
  Impl.preserves Impl.cache_ok (Impl.db_read f).
Proof. by intros s Hs. Qed.

Lemma cache_ok_db_update f : Impl.preserves Impl.cache_ok (Impl.db_update f).
Proof. intros s Hs. rewrite wp_db_update. by apply cache_ok_set_db. Qed.

Lemma cache_ok_db_exec {A} (f : database → result (A * database)) :
  Impl.preserves Impl.cache_ok (Impl.db_exec f).
Proof.
  intros s Hs. rewrite wp_db_exec.
  destruct (f _) as [[a d']|e]; [|done]. by apply cache_ok_set_db.
Qed.

Lemma cache_ok_db_exec_ f : Impl.preserves Impl.cache_ok (Impl.db_exec_ f).
Proof.
  intros s Hs. rewrite wp_db_exec_.
  destruct (f _) as [d'|e]; [|done]. by apply cache_ok_set_db.
Qed.

Lemma cache_ok_transaction {A} (m : Impl.M A) :
  Impl.preserves Impl.cache_ok m →
  Impl.preserves Impl.cache_ok (Impl.transaction m).
Proof.
  intros Hm s Hs. rewrite wp_transaction.
  eapply wp_mono; [| |by apply Hm]; [done|].
  intros e s' Hs'. by apply cache_ok_set_db.
Qed.

Lemma cache_ok_update_vp_ids vp_ids :
  Impl.preserves Impl.cache_ok (Impl.update_vp_ids vp_ids).
Proof.
  intros s Hs.
  eapply wp_mono; [| |by apply update_vp_ids_spec]; [|done].
  by intros _ s' [? _].
Qed.

Lemma cache_ok_the_insert_point :
  Impl.preserves Impl.cache_ok Impl.the_insert_point.
Proof.
  intros s Hs.
  eapply wp_mono; [| |by apply the_insert_point_spec].
  - intros stmt s' [_ ->]. by apply cache_ok_insert.
  - by intros e s' [-> _].
Qed.

Lemma cache_ok_insert_point_ v :
  Impl.preserves Impl.cache_ok (Impl.insert_point_ distance v).
Proof.
  unfold Impl.insert_point_, Impl.vp_dists_.
  apply preserves_bind; [apply cache_ok_db_read|]. intros [id|].
  { apply preserves_ret. }
  apply preserves_bind.
  { apply preserves_bind; [apply cache_ok_db_read|]. intros vps.
    apply preserves_bind; [apply cache_ok_update_vp_ids|]. intros _.
    apply preserves_ret. }
  intros dists. apply preserves_bind; [apply cache_ok_the_insert_point|].
  intros stmt. apply preserves_bind; [apply cache_ok_db_exec|].
  intros id. apply preserves_bind; [apply cache_ok_db_update|].
  intros _. apply preserves_ret.
Qed.

Lemma cache_ok_insert_item_ point_id item :
  Impl.preserves Impl.cache_ok (Impl.insert_item_ point_id item).
Proof.
  unfold Impl.insert_item_.
  apply preserves_bind; [apply cache_ok_db_read|]. intros [old_id|].
  - case_bool_decide; [apply cache_ok_db_update|apply preserves_ret].
  - apply preserves_bind; [apply cache_ok_db_update|]. intros _.
    apply cache_ok_db_update.
Qed.

Lemma cache_ok_insert_op v item :
  Impl.preserves Impl.cache_ok (Impl.insert distance v item).
Proof.
  apply cache_ok_transaction, preserves_bind; [apply cache_ok_insert_point_|].
  intros id. apply cache_ok_insert_item_.
Qed.

Lemma cache_ok_add_vantage_point v :
  Impl.preserves Impl.cache_ok (Impl.add_vantage_point distance v).
Proof.
  apply cache_ok_transaction, preserves_bind.
  { unfold Impl.insert_vantage_point_.
    apply preserves_bind; [apply cache_ok_db_exec|]. intros id.
    apply preserves_bind; [apply cache_ok_db_update|]. intros _.
    apply preserves_ret. }
  intros id. unfold Impl.add_points_column_.
  apply preserves_bind; [apply cache_ok_db_exec_|]. intros _.
  apply preserves_bind; [apply cache_ok_db_read|]. intros scan.
  apply preserves_for_each. intros [pid w]. apply cache_ok_db_update.
Qed.

Lemma cache_ok_query pt radius limit :
  Impl.preserves Impl.cache_ok (Impl.query distance pt radius limit).
Proof.
  intros s Hs.
  eapply wp_mono; [| |by apply query_spec].
  - by intros res s' (_ & _ & _ & _ & ?).
  - by intros e s' (_ & ? & _).
Qed.

Lemma cache_ok_find_vantage_point n :
  Impl.preserves Impl.cache_ok (Impl.find_vantage_point n).
Proof.
  apply cache_ok_transaction, preserves_bind; [apply cache_ok_db_read|].
  intros [r|]; [|apply preserves_throw].
  cbn zeta. destruct (0 <? n_vantage_points r); apply preserves_ret.
Qed.

Lemma preserves_snd {A} I (m : Impl.M A) s :
  Impl.preserves I m → I s → I (snd (m s)).
Proof.
  intros Hm Hs. specialize (Hm s Hs). unfold Impl.wp in Hm.
  by destruct (m s) as [[a|e] s'].
Qed.

Lemma cache_ok_step s o :
  Impl.cache_ok s → Impl.cache_ok (Impl.step distance s o).
Proof.
  intros Hs. destruct o; cbn [Impl.step]; apply preserves_snd; try done.
  - apply cache_ok_insert_op.
  - apply cache_ok_add_vantage_point.
  - apply cache_ok_query.
  - apply cache_ok_find_vantage_point.
Qed.

Lemma cache_ok_run ops : ∀ s,
  Impl.cache_ok s → Impl.cache_ok (Impl.run distance ops s).
Proof.
  induction ops as [|o ops IH]; intros s Hs; [done|].
  cbn. apply IH. by apply cache_ok_step.
Qed.

(** A value the SELECT by value does not find breaks no UNIQUE constraint
    when it is inserted. *)
Lemma sel_point_by_value_None_fresh v d :
  sel_point_by_value v d = None →
  ¬ (v ≠ [] ∧ v ∈ p_value <$> mvp_points d).
Proof.
  intros Hsel [Hv Hin]. destruct v as [|b v]; [done|].
  cbn in Hsel. apply fmap_None in Hsel.
  apply list_elem_of_fmap in Hin as (r & Hr & Hin).
  rewrite list_elem_of_In in Hin.
  pose proof (List.find_none _ _ Hsel r Hin) as Hnone.
  by rewrite bool_decide_eq_false in Hnone.
Qed.

(** What [insert_point_] does for a value that is not stored yet, from a
    state with a sound cache: the row it appends is the one the statement
    generated from the ids just read inserts, with one bound distance per
    vantage point. *)
Lemma insert_point__new v s :
  Impl.cache_ok s → sel_point_by_value v (Impl.db s) = None →
  Impl.wp (Impl.insert_point_ distance v)
    (λ id s',
       let d := Impl.db s in
       let dists := (λ vp, to_int32 (to_uint32
                             (Impl.get_distance distance (vp_value vp) v)))
                      <$> sel_vps d in
       id = next_rowid (p_id <$> mvp_points d) ∧
       Impl.db s'
       = increment_count col_points
           (set_points
              (mvp_points d ++
               [PointRow id v
                  (inserted_cells (sel_vp_ids d) dists (mvp_points_cols d))])
              d) ∧
       Impl.vp_ids_ s' = sel_vp_ids d ∧
       Impl.insert_point s' = Some (sel_vp_ids d))
    (λ _ _, columns_exist (sel_vp_ids (Impl.db s)) (Impl.db s) = false) s.
Proof.
  intros Hok Hsel. unfold Impl.insert_point_.
  rewrite wp_bind, wp_db_read, Hsel, wp_bind. unfold Impl.vp_dists_.
  rewrite wp_bind, wp_db_read, wp_bind.
  eapply wp_mono; [| |apply (update_vp_ids_spec _ _ Hok)]; [|done].
  intros _ s1 (Hok1 & Hids1 & Hdb1 & _). cbn beta.
  rewrite wp_ret, wp_bind.
  eapply wp_mono; [| |apply (the_insert_point_spec _ Hok1)].
  2:{ intros e s2 [_ Hcols]. by rewrite Hids1, Hdb1 in Hcols. }
  intros stmt s2 [-> ->]. cbn beta.
  rewrite wp_bind, wp_db_exec. cbn [Impl.db]. rewrite Hdb1.
  unfold exec_insert_point. case_bool_decide as Hlen.
  { rewrite Hids1, !length_fmap in Hlen. lia. }
  rewrite bool_decide_eq_false_2 by by apply sel_point_by_value_None_fresh.
  rewrite wp_bind, wp_db_update, wp_ret. cbn. by rewrite Hids1.
Qed.


End Cache.

(** ** Rowids, orderings and inserted cells *)

Lemma foldr_max_ge (ids : list Z) x : x ∈ ids → x ≤ foldr Z.max 0 ids.
Proof.
  induction ids as [|y ids IH]; [by intros ?%elem_of_nil|].
  intros [->|Hx]%elem_of_cons; cbn; [lia|]. specialize (IH Hx). lia.
Qed.

Lemma next_rowid_fresh (ids : list Z) : next_rowid ids ∉ ids.
Proof.
  intros Hin%foldr_max_ge. unfold next_rowid in Hin. lia.
Qed.

Lemma insert_by_Permutation {A} (key : A → Z) x l :
  insert_by key x l ≡ₚ x :: l.
Proof.
  induction l as [|y l IH]; cbn; [done|].
  destruct (key x <=? key y); [done|]. rewrite IH. apply Permutation_swap.
Qed.

Lemma order_by_Permutation {A} (key : A → Z) (l : list A) :
  order_by key l ≡ₚ l.
Proof.
  induction l as [|x l IH]; cbn; [done|].
  by rewrite insert_by_Permutation, IH.
Qed.

Lemma zip_fmap_fmap {A B C} (g : A → B) (f : A → C) (l : list A) :
  zip (g <$> l) (f <$> l) = (λ x, (g x, f x)) <$> l.
Proof. induction l as [|x l IH]; cbn; [done|]. by rewrite IH. Qed.

Lemma filter_none {A} (P : A → Prop) `{∀ x, Decision (P x)} (l : list A) :
  (∀ x, x ∈ l → ¬ P x) → filter P l = [].
Proof.
  induction l as [|x l IH]; intros Hl; [done|].
  rewrite filter_cons_False by (apply Hl, list_elem_of_here).
  apply IH. intros y Hy. by apply Hl, list_elem_of_further.
Qed.

Lemma NoDup_fmap_elem_eq {A B} (f : A → B) (l : list A) x y :
  NoDup (f <$> l) → x ∈ l → y ∈ l → f x = f y → x = y.
Proof.
  induction l as [|z l IH]; [by intros _ ?%elem_of_nil|].
  rewrite fmap_cons, NoDup_cons.
  intros [Hz Hl] [->|Hx]%elem_of_cons [->|Hy]%elem_of_cons Hf; auto.
  - exfalso. apply Hz. rewrite Hf. by apply list_elem_of_fmap_2.
  - exfalso. apply Hz. rewrite <- Hf. by apply list_elem_of_fmap_2.
Qed.

Lemma NoDup_lookup_not_in_take {A} (l : list A) i k x :
  NoDup l → l !! i = Some x → (k ≤ i)%nat → x ∉ take k l.
Proof.
  intros Hnd Hi Hk (j & Hj & Hlt)%elem_of_take.
  pose proof (NoDup_lookup _ _ _ _ Hnd Hi Hj). lia.
Qed.

(** The cells of a row inserted by the statement for [g <$> l], with
    [f <$> l] bound to it, when the table has no other column. *)
Lemma inserted_cells_all {A} (g f : A → Z) (l : list A) (cols : list Z) :
  (∀ c, c ∈ cols → c ∈ g <$> l) →
  inserted_cells (g <$> l) (f <$> l) cols
  = list_to_map ((λ x, (g x, f x)) <$> l).
Proof.
  intros Hcols. unfold inserted_cells.
  rewrite (filter_none _ cols) by (intros c Hc Hn; by apply Hn, Hcols).
  cbn. by rewrite (right_id_L ∅ (∪)), zip_fmap_fmap.
Qed.

(** ** Ids and columns *)

Section Tables.

Variable distance : point_type → point_type → Z.

Lemma tables_ok_same_tables d d' :
  mvp_points d' = mvp_points d →
  mvp_points_cols d' = mvp_points_cols d →
  mvp_vantage_points d' = mvp_vantage_points d →
  Impl.tables_ok d → Impl.tables_ok d'.
Proof. unfold Impl.tables_ok. by intros -> -> ->. Qed.

Lemma tables_ok_insert_point d d' row :
  Impl.tables_ok d →
  p_id row = next_rowid (p_id <$> mvp_points d) →
  mvp_points d' = mvp_points d ++ [row] →
  mvp_points_cols d' = mvp_points_cols d →
  mvp_vantage_points d' = mvp_vantage_points d →
  Impl.tables_ok d'.
Proof.
  intros (Hpid & Hvid & Hcols) Hid Hpts Hc Hv.
  unfold Impl.tables_ok. rewrite Hpts, Hc, Hv.
  split; [|done]. rewrite fmap_app. apply NoDup_app. split; [done|]. split.
  - intros x Hx [->|[]%elem_of_nil]%elem_of_cons.
    rewrite Hid in Hx. by apply next_rowid_fresh in Hx.
  - apply NoDup_singleton.
Qed.

Lemma backfilled_ids col v scan rows rows' :
  Forall2 (Impl.backfilled distance col v scan) rows rows' →
  p_id <$> rows' = p_id <$> rows.
Proof.
  induction 1 as [|r r' l l' (Hid & _) _ IH]; [done|].
  cbn. by rewrite Hid, IH.
Qed.

Lemma tables_ok_add_points_column d d' v :
  Impl.tables_ok d →
  let id := next_rowid (vp_id <$> mvp_vantage_points d) in
  p_id <$> mvp_points d' = p_id <$> mvp_points d →
  mvp_points_cols d' = mvp_points_cols d ++ [id] →
  mvp_vantage_points d' = mvp_vantage_points d ++ [VpRow id v] →
  Impl.tables_ok d'.
Proof.
  intros (Hpid & Hvid & Hcols) id Hpts Hc Hv.
  assert (id ∉ vp_id <$> mvp_vantage_points d) as Hfresh
    by apply next_rowid_fresh.
  unfold Impl.tables_ok. rewrite Hpts, Hc, Hv.
  split; [done|]. split.
  - rewrite fmap_app. apply NoDup_app. split; [done|]. split.
    + by intros x Hx [->|[]%elem_of_nil]%elem_of_cons.
    + apply NoDup_singleton.
  - intros c. rewrite fmap_app, !elem_of_app. by rewrite Hcols.
Qed.

Lemma columns_exist_sel_vp_ids d :
  Impl.tables_ok d → columns_exist (sel_vp_ids d) d = true.
Proof.
  intros (_ & _ & Hcols). unfold columns_exist.
  apply forallb_forall. intros c Hc%list_elem_of_In.
  apply bool_decide_eq_true_2, Hcols.
  unfold sel_vp_ids, sel_vps in Hc. by rewrite order_by_Permutation in Hc.
Qed.

(** What the calls do to the three tables the invariants speak of. *)
Lemma insert_item__tables point_id item s :
  Impl.wp (Impl.insert_item_ point_id item)
    (λ _ s', mvp_points (Impl.db s') = mvp_points (Impl.db s) ∧
             mvp_points_cols (Impl.db s') = mvp_points_cols (Impl.db s) ∧
             mvp_vantage_points (Impl.db s')
             = mvp_vantage_points (Impl.db s))
    (λ _ _, False) s.
Proof.
  unfold Impl.insert_item_. rewrite wp_bind, wp_db_read.
  destruct (get_file_by_path item (Impl.db s)) as [old_id|].
  - case_bool_decide; [by rewrite wp_db_update|by rewrite wp_ret].
  - by rewrite wp_bind, wp_db_update, wp_db_update.
Qed.

Lemma insert_spec v item s :
  Impl.cache_ok s →
  Impl.wp (Impl.insert distance v item)
    (λ _ s',
       let d := Impl.db s in
       mvp_points_cols (Impl.db s') = mvp_points_cols d ∧
       mvp_vantage_points (Impl.db s') = mvp_vantage_points d ∧
       (mvp_points (Impl.db s') = mvp_points d ∨
        mvp_points (Impl.db s')
        = mvp_points d ++
          [PointRow (next_rowid (p_id <$> mvp_points d)) v
             (inserted_cells (sel_vp_ids d)
                ((λ vp, to_int32 (to_uint32
                           (Impl.get_distance distance (vp_value vp) v)))
                   <$> sel_vps d)
                (mvp_points_cols d))]))
    (λ _ s', Impl.db s' = Impl.db s ∧
             columns_exist (sel_vp_ids (Impl.db s)) (Impl.db s) = false) s.
Proof.
  intros Hok. unfold Impl.insert. rewrite wp_transaction, wp_bind.
  destruct (sel_point_by_value v (Impl.db s)) as [id|] eqn:Hsel.
  - unfold Impl.insert_point_. rewrite wp_bind, wp_db_read, Hsel, wp_ret.
    eapply wp_mono; [| |apply insert_item__tables]; [|done].
    intros _ s' (-> & -> & ->). cbn zeta. split; [done|]. split; [done|].
    by left.
  - eapply wp_mono; [| |by apply insert_point__new].
    2:{ intros e s1 Hcols. split; [by destruct s1|done]. }
    intros id s1 (-> & Hdb1 & _). cbn beta.
    eapply wp_mono; [| |apply insert_item__tables]; [|done].
    intros _ s' (-> & -> & ->). rewrite Hdb1. cbn.
    split; [done|]. split; [done|]. by right.
Qed.

Lemma add_vantage_point_spec v s :
  Impl.wp (Impl.add_vantage_point distance v)
    (λ _ s',
       let d := Impl.db s in
       let id := next_rowid (vp_id <$> mvp_vantage_points d) in
       let rows := (λ r, PointRow (p_id r) (p_value r)
                                  (<[id := points_col_default]> (p_d r)))
                     <$> mvp_points d in
       Forall2 (Impl.backfilled distance id v
                  ((λ r, (p_id r, p_value r)) <$> rows))
               rows (mvp_points (Impl.db s')) ∧
       mvp_points_cols (Impl.db s') = mvp_points_cols d ++ [id] ∧
       mvp_vantage_points (Impl.db s')
       = mvp_vantage_points d ++ [VpRow id v])
    (λ _ s',
       Impl.db s' = Impl.db s ∧
       (v ≠ [] ∧ v ∈ vp_value <$> mvp_vantage_points (Impl.db s) ∨
        next_rowid (vp_id <$> mvp_vantage_points (Impl.db s))
        ∈ mvp_points_cols (Impl.db s))) s.
Proof.
  unfold Impl.add_vantage_point, Impl.insert_vantage_point_.
  rewrite wp_transaction, wp_bind, wp_bind, wp_db_exec.
  unfold exec_ins_vp. case_bool_decide as Hdup.
  { split; [by destruct s|by left]. }
  rewrite wp_bind, wp_db_update, wp_ret. unfold Impl.add_points_column_.
  rewrite wp_bind, wp_db_exec_. cbn [Impl.db Impl.set_db].
  unfold exec_add_points_col. case_bool_decide as Hcol.
  { split; [by destruct s|by right]. }
  rewrite wp_bind, wp_db_read. cbn [Impl.db Impl.set_db].
  match goal with |- Impl.wp (Impl.backfill _ ?c ?w ?sc) _ _ ?st =>
    destruct (backfill_spec distance c w sc st) as (rows' & Heq & Hall)
  end.
  unfold Impl.wp. rewrite Heq. cbn. by split.
Qed.

Lemma wp_snd {A} (m : Impl.M A) Q E (R : Impl.state → Prop) s :
  Impl.wp m Q E s → (∀ a s', Q a s' → R s') → (∀ e s', E e s' → R s') →
  R (snd (m s)).
Proof.
  unfold Impl.wp. destruct (m s) as [[a|e] s']; cbn; eauto.
Qed.

Lemma find_vantage_point_db n s :
  Impl.db (snd (Impl.find_vantage_point n s)) = Impl.db s.
Proof.
  unfold Impl.find_vantage_point, Impl.transaction, mbind, Impl.M_bind.
  unfold Impl.db_read, get_count. cbn.
  destruct (mvp_counts (Impl.db s)) as [r|]; cbn; [|by destruct s].
  by destruct (0 <? n_vantage_points r).
Qed.

Lemma tables_ok_step s o :
  Impl.cache_ok s → Impl.tables_ok (Impl.db s) →
  Impl.tables_ok (Impl.db (Impl.step distance s o)).
Proof.
  intros Hok Hdb. destruct o; cbn [Impl.step].
  - apply (wp_snd _ _ _ (λ s', Impl.tables_ok (Impl.db s')) _
             (insert_spec _ _ s Hok)); [|by intros e s' [-> _]].
    intros _ s' (Hc & Hv & [Hp|Hp]).
    + by eapply tables_ok_same_tables.
    + eapply tables_ok_insert_point; [exact Hdb| |exact Hp|exact Hc|exact Hv].
      done.
  - apply (wp_snd _ _ _ (λ s', Impl.tables_ok (Impl.db s')) _
             (add_vantage_point_spec _ s)); [|by intros e s' [-> _]].
    intros _ s' (Hall & Hc & Hv).
    eapply tables_ok_add_points_column; [exact Hdb| |exact Hc|exact Hv].
    rewrite (backfilled_ids _ _ _ _ _ Hall). by rewrite <- list_fmap_compose.
  - apply (wp_snd _ _ _ (λ s', Impl.tables_ok (Impl.db s')) _
             (query_spec distance _ _ _ s Hok)); [|by intros e s' [-> _]].
    intros res s' (-> & _). by eapply tables_ok_same_tables.
  - by rewrite find_vantage_point_db.
Qed.

Lemma tables_ok_run ops : ∀ s,
  Impl.cache_ok s → Impl.tables_ok (Impl.db s) →
  Impl.tables_ok (Impl.db (Impl.run distance ops s)).
Proof.
  induction ops as [|o ops IH]; intros s Hok Hdb; [done|].
  cbn. apply IH; [by apply cache_ok_step|by apply tables_ok_step].
Qed.

Lemma tables_ok_empty : Impl.tables_ok (Impl.db (Impl.new empty_database)).
Proof.
  unfold Impl.tables_ok. cbn.
  split; [apply NoDup_nil_2|]. split; [apply NoDup_nil_2|]. done.
Qed.

(** *** The calls return *)

Lemma insert_returns v item s :
  Impl.cache_ok s → Impl.tables_ok (Impl.db s) →
  ∃ s', Impl.insert distance v item s = (Ok tt, s').
Proof.
  intros Hok Hdb.
  pose proof (insert_spec v item s Hok) as Hwp. unfold Impl.wp in Hwp.
  destruct (Impl.insert distance v item s) as [[[]|e] s'] eqn:Hins.
  - by exists s'.
  - destruct Hwp as [_ Hcols].
    by rewrite columns_exist_sel_vp_ids in Hcols.
Qed.

Lemma add_vantage_point_returns v s :
  Impl.tables_ok (Impl.db s) →
  v = [] ∨ v ∉ vp_value <$> mvp_vantage_points (Impl.db s) →
  ∃ s', Impl.add_vantage_point distance v s = (Ok tt, s').
Proof.
  intros (_ & _ & Hcols) Hnew.
  pose proof (add_vantage_point_spec v s) as Hwp. unfold Impl.wp in Hwp.
  destruct (Impl.add_vantage_point distance v s) as [[[]|e] s'] eqn:Hadd.
  - by exists s'.
  - destruct Hwp as [_ [[Hv Hdup]|Hcol]]; [by destruct Hnew|].
    apply Hcols in Hcol. by apply next_rowid_fresh in Hcol.
Qed.

Lemma query_returns pt radius limit s :
  Impl.cache_ok s → Impl.tables_ok (Impl.db s) →
  ∃ res s', Impl.query distance pt radius limit s = (Ok res, s').
Proof.
  intros Hok Hdb.
  pose proof (query_spec distance pt radius limit s Hok) as Hwp.
  unfold Impl.wp in Hwp.
  destruct (Impl.query distance pt radius limit s) as [[res|e] s'] eqn:Hq.
  - by exists res, s'.
  - destruct Hwp as (_ & _ & [Hcols|Hnd]).
    + by rewrite columns_exist_sel_vp_ids in Hcols.
    + destruct Hnd. destruct Hdb as (Hpid & _).
      eapply sublist_NoDup; [exact Hpid|].
      apply fmap_sublist, sublist_filter.
Qed.

End Tables.

(** ** The default of the column of a new vantage point *)

Section Default.

Variable distance : point_type → point_type → Z.

Lemma backfill_app col v scan1 scan2 s :
  Impl.backfill distance col v (scan1 ++ scan2) s
  = Impl.backfill distance col v scan2
      (snd (Impl.backfill distance col v scan1 s)).
Proof.
  revert s. induction scan1 as [|[id w] scan1 IH]; intros s; [done|].
  cbn [app]. by rewrite !backfill_cons, IH.
Qed.

Lemma backfill_prefix col v s1 (k : nat) :
  NoDup (p_id <$> mvp_points (Impl.db s1)) →
  (∀ r, r ∈ mvp_points (Impl.db s1) → p_d r !! col = Some 0x7FFFFFFF) →
  let scan := sel_all_points (Impl.db s1) in
  let sk := snd (Impl.backfill distance col v (take k scan) s1) in
  sel_all_points (Impl.db sk) = scan ∧
  ∀ (i : nat) r,
    mvp_points (Impl.db sk) !! i = Some r →
    p_d r !! col
    = Some (if bool_decide (i < k)%nat
            then to_uint32 (Impl.get_distance distance v (p_value r))
            else 0x7FFFFFFF).
Proof.
  intros Hnd Hdef scan sk. subst sk.
  destruct (backfill_spec distance col v (take k scan) s1)
    as (rows' & -> & Hall).
  cbn [snd Impl.db Impl.set_db mvp_points set_points]. split.
  - unfold scan, sel_all_points. cbn [mvp_points set_points].
    clear -Hall. induction Hall as [|r r' l l' (Hid & Hval & _) _ IH]; [done|].
    cbn. by rewrite Hid, Hval, IH.
  - intros i r' Hi.
    destruct (Forall2_lookup_r _ _ _ i r' Hall Hi)
      as (r & Hr & Hid & Hval & _ & Hout & Hin).
    assert (scan !! i = Some (p_id r, p_value r)) as Hscan.
    { unfold scan, sel_all_points. by rewrite list_lookup_fmap, Hr. }
    case_bool_decide as Hk.
    + destruct Hin as (w & Hw & ->).
      { apply list_elem_of_fmap. exists (p_id r, p_value r). split; [done|].
        apply elem_of_take. by exists i. }
      do 3 f_equal. rewrite Hval.
      pose proof (elem_of_sublist _ _ _ Hw (sublist_take _ _)) as Hw'.
      apply list_elem_of_fmap in Hw' as (r2 & [= Hid2 ->] & Hr2).
      f_equal. symmetry. eapply (NoDup_fmap_elem_eq p_id); eauto.
      by eapply list_elem_of_lookup_2.
    + rewrite Hout.
      * apply Hdef. by eapply list_elem_of_lookup_2.
      * rewrite fmap_take. unfold scan, sel_all_points.
        rewrite <- list_fmap_compose.
        apply (NoDup_lookup_not_in_take _ i); [exact Hnd| |lia].
        by rewrite list_lookup_fmap, Hr.
Qed.

(** C10. A registration that returns, in any state reached on a new index:
    [insert_vantage_point_] yields the id of the new vantage point and
    [add_points_column_] first adds the column of that id, which the table
    did not have. With the column added and the loop not yet started,
    every existing row reads [0x7FFFFFFF] in it, a value no [int] exceeds.
    After the loop has visited the first [k] rows of its scan, those rows
    read the distance from the new vantage point to their value and every
    row it has not visited still reads [0x7FFFFFFF]; run over the rows
    that are left, the loop ends in the state the registration returns
    in. No row is added, lost or given another value on the way. *)
Theorem add_vantage_point_column_default (ops : list Impl.op)
    (v : point_type) (s' : Impl.state) :
  let s := Impl.run distance ops (Impl.new empty_database) in
  let id := next_rowid (vp_id <$> mvp_vantage_points (Impl.db s)) in
  Impl.add_vantage_point distance v s = (Ok tt, s') →
  ∃ s0 s1,
    Impl.insert_vantage_point_ v s = (Ok id, s0) ∧
    Impl.db_exec_ (exec_add_points_col id) s0 = (Ok tt, s1) ∧
    Impl.add_points_column_ distance id v s0 = (Ok tt, s') ∧
    (id ∉ mvp_points_cols (Impl.db s)) ∧
    id ∈ mvp_points_cols (Impl.db s1) ∧
    sel_all_points (Impl.db s1) = sel_all_points (Impl.db s) ∧
    (∀ r, r ∈ mvp_points (Impl.db s1) → p_d r !! id = Some 0x7FFFFFFF) ∧
    (∀ x, to_int32 x ≤ 0x7FFFFFFF) ∧
    ∀ k : nat,
      let scan := sel_all_points (Impl.db s1) in
      let sk := snd (Impl.backfill distance id v (take k scan) s1) in
      Impl.backfill distance id v (drop k scan) sk = (Ok tt, s') ∧
      sel_all_points (Impl.db sk) = scan ∧
      ∀ (i : nat) r,
        mvp_points (Impl.db sk) !! i = Some r →
        p_d r !! id
        = Some (if bool_decide (i < k)%nat
                then to_uint32 (Impl.get_distance distance v (p_value r))
                else 0x7FFFFFFF).
Proof.
  intros s id Hadd.
  assert (Impl.tables_ok (Impl.db s)) as (Hpid & _ & Hcols)
    by (apply tables_ok_run; [apply cache_ok_new|apply tables_ok_empty]).
  assert (id ∉ mvp_points_cols (Impl.db s)) as Hfresh.
  { intros Hin%Hcols. by apply next_rowid_fresh in Hin. }
  unfold Impl.add_vantage_point, Impl.transaction in Hadd.
  unfold mbind at 1, Impl.M_bind at 1 in Hadd.
  destruct (Impl.insert_vantage_point_ v s) as [[id0|e] s0] eqn:Hvp.
  2:{ done. }
  assert (id0 = id ∧
          mvp_points (Impl.db s0) = mvp_points (Impl.db s) ∧
          mvp_points_cols (Impl.db s0) = mvp_points_cols (Impl.db s))
    as (-> & Hpts0 & Hcols0).
  { revert Hvp. unfold Impl.insert_vantage_point_, mbind, Impl.M_bind.
    unfold Impl.db_exec, exec_ins_vp. case_bool_decide; [done|].
    by intros [= <- <-]. }
  destruct (Impl.add_points_column_ distance id v s0) as [[[]|e] s2] eqn:Hcol.
  2:{ done. }
  injection Hadd as ->.
  unfold Impl.add_points_column_ in Hcol.
  unfold mbind at 1, Impl.M_bind at 1 in Hcol.
  destruct (Impl.db_exec_ (exec_add_points_col id) s0) as [[[]|e] s1] eqn:Halter.
  2:{ done. }
  change (Impl.backfill distance id v (sel_all_points (Impl.db s1)) s1
          = (Ok tt, s')) in Hcol.
  assert (mvp_points (Impl.db s1)
          = (λ r, PointRow (p_id r) (p_value r)
                           (<[id := points_col_default]> (p_d r)))
              <$> mvp_points (Impl.db s) ∧
          mvp_points_cols (Impl.db s1) = mvp_points_cols (Impl.db s) ++ [id])
    as [Hpts1 Hcols1].
  { revert Halter. unfold Impl.db_exec_.
    destruct (exec_add_points_col id (Impl.db s0)) as [d1|e] eqn:Hexec; [|done].
    intros [= <-]. apply exec_add_points_col_rows in Hexec as [_ ->].
    cbn. by rewrite Hpts0, Hcols0. }
  assert (sel_all_points (Impl.db s1) = sel_all_points (Impl.db s)) as Hscan.
  { unfold sel_all_points. by rewrite Hpts1, <- list_fmap_compose. }
  assert (∀ r, r ∈ mvp_points (Impl.db s1) → p_d r !! id = Some 0x7FFFFFFF)
    as Hdef.
  { intros r. rewrite Hpts1. intros (r0 & -> & _)%list_elem_of_fmap.
    cbn. by rewrite lookup_insert_eq. }
  exists s0, s1. split; [done|]. split; [done|]. split.
  { unfold Impl.add_points_column_. unfold mbind at 1, Impl.M_bind at 1.
    by rewrite Halter. }
  split; [done|]. split.
  { rewrite Hcols1. apply elem_of_app. right. apply list_elem_of_here. }
  split; [done|]. split; [done|]. split; [apply to_int32_le_max|].
  intros k scan sk. split.
  - subst sk. rewrite <- backfill_app. by rewrite take_drop.
  - apply backfill_prefix; [|done].
    rewrite Hpts1, <- list_fmap_compose. exact Hpid.
Qed.

End Default.

Lemma add_vantage_point_column_default_witness :
  let s := Impl.run hamming64 [Impl.Insert [x00] "a"; Impl.Insert [xff] "b"]
                    (Impl.new empty_database) in
  let s' := snd (Impl.add_vantage_point hamming64 [x0f] s) in
  ∃ s0 s1,
    Impl.insert_vantage_point_ [x0f] s = (Ok 1, s0) ∧
    Impl.db_exec_ (exec_add_points_col 1) s0 = (Ok tt, s1) ∧
    Impl.add_points_column_ hamming64 1 [x0f] s0 = (Ok tt, s') ∧
    (1 ∉ mvp_points_cols (Impl.db s)) ∧
    1 ∈ mvp_points_cols (Impl.db s1) ∧
    sel_all_points (Impl.db s1) = sel_all_points (Impl.db s) ∧
    (∀ r, r ∈ mvp_points (Impl.db s1) → p_d r !! 1 = Some 0x7FFFFFFF) ∧
    (∀ x, to_int32 x ≤ 0x7FFFFFFF) ∧
    ∀ k : nat,
      let scan := sel_all_points (Impl.db s1) in
      let sk := snd (Impl.backfill hamming64 1 [x0f] (take k scan) s1) in
      Impl.backfill hamming64 1 [x0f] (drop k scan) sk = (Ok tt, s') ∧
      sel_all_points (Impl.db sk) = scan ∧
      ∀ (i : nat) r,
        mvp_points (Impl.db sk) !! i = Some r →
        p_d r !! 1
        = Some (if bool_decide (i < k)%nat
                then to_uint32 (Impl.get_distance hamming64 [x0f] (p_value r))
                else 0x7FFFFFFF).
Proof.
  intros s s'.
  apply (add_vantage_point_column_default hamming64
           [Impl.Insert [x00] "a"; Impl.Insert [xff] "b"] [x0f] s').
  vm_compute. reflexivity.
Defined.

(** ** Completeness of the embedding *)

Section Embedding.

Variable distance : point_type → point_type → Z.

(** The distances are those of fingerprints: they fit [int]. *)
Hypothesis distance_fits : ∀ a b, 0 ≤ distance a b ≤ INT32_MAX.

Lemma get_distance_fits a b : Impl.get_distance distance a b = distance a b.
Proof. unfold Impl.get_distance. by apply to_int32_small. Qed.

Lemma stored_distance_insert a b :
  to_int32 (to_uint32 (Impl.get_distance distance a b)) = distance a b.
Proof.
  rewrite get_distance_fits. pose proof (distance_fits a b) as H.
  unfold INT32_MAX in H.
  rewrite to_uint32_small by (unfold UINT32_MAX; lia).
  by apply to_int32_small.
Qed.

Lemma stored_distance_backfill a b :
  to_uint32 (Impl.get_distance distance a b) = distance a b.
Proof.
  rewrite get_distance_fits. pose proof (distance_fits a b) as H.
  unfold INT32_MAX in H. apply to_uint32_small. unfold UINT32_MAX. lia.
Qed.

Lemma db_ok_same_tables d d' :
  mvp_points d' = mvp_points d →
  mvp_points_cols d' = mvp_points_cols d →
  mvp_vantage_points d' = mvp_vantage_points d →
  Impl.db_ok distance d → Impl.db_ok distance d'.
Proof.
  unfold Impl.db_ok, Impl.tables_ok, Impl.embedding_complete.
  by intros -> -> ->.
Qed.

(** The row [insert_point_] appends has a complete embedding. *)
Lemma db_ok_insert_point d d' v :
  Impl.db_ok distance d →
  mvp_points d'
  = mvp_points d ++
    [PointRow (next_rowid (p_id <$> mvp_points d)) v
       (inserted_cells (sel_vp_ids d)
          ((λ vp, to_int32 (to_uint32
                     (Impl.get_distance distance (vp_value vp) v)))
             <$> sel_vps d)
          (mvp_points_cols d))] →
  mvp_points_cols d' = mvp_points_cols d →
  mvp_vantage_points d' = mvp_vantage_points d →
  Impl.db_ok distance d'.
Proof.
  intros [Htab Hemb] Hpts Hc Hv. split.
  { eapply tables_ok_insert_point; [exact Htab| |exact Hpts|exact Hc|exact Hv].
    done. }
  destruct Htab as (Hpid & Hvid & Hcols).
  unfold Impl.embedding_complete. rewrite Hpts, Hv.
  intros r [Hr|[->|[]%elem_of_nil]%elem_of_cons]%elem_of_app.
  { by apply Hemb. }
  cbn [p_d p_value]. unfold sel_vp_ids, sel_vps.
  pose proof (order_by_Permutation vp_id (mvp_vantage_points d)) as Hperm.
  rewrite inserted_cells_all.
  2:{ intros c Hc'%Hcols. by rewrite Hperm. }
  split.
  - rewrite dom_list_to_map_L, <- list_fmap_compose.
    apply list_to_set_perm_L. by rewrite Hperm.
  - intros vp Hvp. rewrite <- (stored_distance_insert (vp_value vp) v).
    apply elem_of_list_to_map_1.
    + rewrite <- list_fmap_compose. by rewrite Hperm.
    + apply list_elem_of_fmap. exists vp. split; [done|]. by rewrite Hperm.
Qed.

(** The rows [add_points_column_] leaves behind have a complete embedding
    for the vantage points together with the new one. *)
Lemma db_ok_add_points_column d d' v :
  Impl.db_ok distance d →
  let id := next_rowid (vp_id <$> mvp_vantage_points d) in
  let rows := (λ r, PointRow (p_id r) (p_value r)
                             (<[id := points_col_default]> (p_d r)))
                <$> mvp_points d in
  Forall2 (Impl.backfilled distance id v ((λ r, (p_id r, p_value r)) <$> rows))
          rows (mvp_points d') →
  mvp_points_cols d' = mvp_points_cols d ++ [id] →
  mvp_vantage_points d' = mvp_vantage_points d ++ [VpRow id v] →
  Impl.db_ok distance d'.
Proof.
  intros [Htab Hemb] id rows Hall Hc Hv. split.
  { eapply tables_ok_add_points_column; [exact Htab| |exact Hc|exact Hv].
    rewrite (backfilled_ids _ _ _ _ _ _ Hall). subst rows.
    by rewrite <- list_fmap_compose. }
  destruct Htab as (Hpid & Hvid & Hcols).
  assert (id ∉ vp_id <$> mvp_vantage_points d) as Hfresh
    by apply next_rowid_fresh.
  subst rows. rewrite Forall2_fmap_l in Hall.
  unfold Impl.embedding_complete. rewrite Hv.
  intros r' Hr'. apply list_elem_of_lookup in Hr' as [i Hi].
  destruct (Forall2_lookup_r _ _ _ i r' Hall Hi)
    as (r & Hr & Hid & Hval & Hother & _ & Hin).
  cbn [p_id p_value p_d] in *.
  apply list_elem_of_lookup_2 in Hr.
  destruct (Hemb r Hr) as [Hdom Hcells].
  assert (p_d r' !! id = Some (distance v (p_value r'))) as Hnew.
  { destruct Hin as (w & Hw & ->).
    - apply list_elem_of_fmap. exists (p_id r, p_value r). split; [done|].
      apply list_elem_of_fmap. eexists. split; [|apply list_elem_of_fmap_2, Hr].
      done.
    - rewrite stored_distance_backfill. do 2 f_equal.
      apply list_elem_of_fmap in Hw as (r1 & [= Hid1 ->] & Hr1).
      apply list_elem_of_fmap in Hr1 as (r2 & -> & Hr2). cbn in *.
      rewrite Hval. f_equal. symmetry.
      eapply (NoDup_fmap_elem_eq p_id); eauto. }
  split.
  - apply set_eq. intros c.
    rewrite fmap_app, list_to_set_app_L, elem_of_union, <- Hdom.
    cbn. rewrite !elem_of_dom, elem_of_union, elem_of_singleton.
    rewrite elem_of_empty. destruct (decide (c = id)) as [->|Hne].
    + rewrite Hnew. split; [by right; left|by eexists].
    + rewrite Hother, lookup_insert_ne by done.
      split; [by left|]. by intros [?|[?|[]]].
  - intros vp [Hvp|[->|[]%elem_of_nil]%elem_of_cons]%elem_of_app.
    + assert (vp_id vp ≠ id) as Hne.
      { intros Heq. apply Hfresh. rewrite <- Heq.
        by apply list_elem_of_fmap_2. }
      rewrite Hother, lookup_insert_ne, Hval by done. by apply Hcells.
    + done.
Qed.

Lemma db_ok_step s o :
  Impl.cache_ok s → Impl.db_ok distance (Impl.db s) →
  Impl.db_ok distance (Impl.db (Impl.step distance s o)).
Proof.
  intros Hok Hdb. destruct o; cbn [Impl.step].
  - apply (wp_snd _ _ _ (λ s', Impl.db_ok distance (Impl.db s')) _
             (insert_spec distance _ _ s Hok)); [|by intros e s' [-> _]].
    intros _ s' (Hc & Hv & [Hp|Hp]).
    + by eapply db_ok_same_tables.
    + by eapply db_ok_insert_point.
  - apply (wp_snd _ _ _ (λ s', Impl.db_ok distance (Impl.db s')) _
             (add_vantage_point_spec distance _ s)); [|by intros e s' [-> _]].
    intros _ s' (Hall & Hc & Hv). by eapply db_ok_add_points_column.
  - apply (wp_snd _ _ _ (λ s', Impl.db_ok distance (Impl.db s')) _
             (query_spec distance _ _ _ s Hok)); [|by intros e s' [-> _]].
    intros res s' (-> & _). by eapply db_ok_same_tables.
  - by rewrite find_vantage_point_db.
Qed.

Lemma db_ok_run ops : ∀ s,
  Impl.cache_ok s → Impl.db_ok distance (Impl.db s) →
  Impl.db_ok distance (Impl.db (Impl.run distance ops s)).
Proof.
  induction ops as [|o ops IH]; intros s Hok Hdb; [done|].
  cbn. apply IH; [by apply cache_ok_step|by apply db_ok_step].
Qed.

Lemma db_ok_empty : Impl.db_ok distance (Impl.db (Impl.new empty_database)).
Proof.
  split; [apply tables_ok_empty|]. by intros r Hr%elem_of_nil.
Qed.

(** For a distance function whose values fit [int]: after every sequence
    of calls on a new index, whichever of them returned or threw, the
    vantage points have distinct ids and every stored point has exactly one
    cell per registered vantage point, which holds the distance from that
    vantage point to the point. The new row of [insert_point_] receives one
    bound distance per vantage point, and [add_points_column_] fills the
    new cell of every row before [add_vantage_point] commits. *)
Lemma embedding_complete_after (ops : list Impl.op) :
  let d := Impl.db (Impl.run distance ops (Impl.new empty_database)) in
  NoDup (vp_id <$> mvp_vantage_points d) ∧
  ∀ r, r ∈ mvp_points d →
       dom (p_d r) = list_to_set (vp_id <$> mvp_vantage_points d) ∧
       ∀ vp, vp ∈ mvp_vantage_points d →
             p_d r !! vp_id vp = Some (distance (vp_value vp) (p_value r)).
Proof.
  intros d.
  destruct (db_ok_run ops _ (cache_ok_new _) db_ok_empty)
    as ((_ & Hvid & _) & Hemb).
  split; [done|]. intros r Hr. by apply Hemb.
Qed.

End Embedding.

Lemma bit_sum_range bits n : 0 ≤ bit_sum bits n ≤ Z.of_nat (length bits).
Proof.
  induction bits as [|i bits IH]; cbn [bit_sum foldr length]; [lia|].
  fold (bit_sum bits n). destruct (N.testbit n (N.of_nat i)); lia.
Qed.

Lemma bit_sum_triangle bits x y z :
  bit_sum bits (N.lxor x z)
  ≤ bit_sum bits (N.lxor x y) + bit_sum bits (N.lxor y z).
Proof.
  induction bits as [|i bits IH]; cbn [bit_sum foldr]; [lia|].
  fold (bit_sum bits (N.lxor x z)) (bit_sum bits (N.lxor x y))
       (bit_sum bits (N.lxor y z)).
  rewrite !N.lxor_spec.
  destruct (N.testbit x (N.of_nat i)), (N.testbit y (N.of_nat i)),
           (N.testbit z (N.of_nat i)); cbn; lia.
Qed.

Lemma hamming64_fits (a b : point_type) : 0 ≤ hamming64 a b ≤ INT32_MAX.
Proof.
  unfold hamming64, INT32_MAX.
  pose proof (bit_sum_range (seq 0 64)
                (N.lxor (fingerprint a) (fingerprint b))) as H.
  rewrite length_seq in H. lia.
Qed.

Lemma hamming64_sym (a b : point_type) : hamming64 a b = hamming64 b a.
Proof. unfold hamming64. by rewrite N.lxor_comm. Qed.

Lemma hamming64_triangle (a b c : point_type) :
  hamming64 a c ≤ hamming64 a b + hamming64 b c.
Proof. apply bit_sum_triangle. Qed.

Lemma embedding_complete_after_witness :
  let d := Impl.db (Impl.run hamming64
                      [Impl.Insert [x00] "a"; Impl.AddVantagePoint [x0f];
                       Impl.Insert [x03] "b"; Impl.AddVantagePoint [x00];
                       Impl.Insert [xff] "c"]
                      (Impl.new empty_database)) in
  vp_id <$> mvp_vantage_points d = [1; 2] ∧
  p_value <$> mvp_points d = [[x00]; [x03]; [xff]] ∧
  ∀ r, r ∈ mvp_points d →
       dom (p_d r) = list_to_set (vp_id <$> mvp_vantage_points d) ∧
       ∀ vp, vp ∈ mvp_vantage_points d →
             p_d r !! vp_id vp = Some (hamming64 (vp_value vp) (p_value r)).
Proof.
  intros d. split; [reflexivity|]. split; [reflexivity|].
  apply (embedding_complete_after hamming64 hamming64_fits).
Defined.

(** ** The candidates of a radius query *)

Lemma between_all_spec (vps : list vp_row) (b : vp_row → Z * Z)
    (cells : gmap Z Z) :
  between_all (vp_id <$> vps) (b <$> vps) cells = true ↔
  ∀ vp, vp ∈ vps →
        ∃ x, cells !! vp_id vp = Some x ∧ fst (b vp) ≤ x ≤ snd (b vp).
Proof.
  induction vps as [|vp0 vps IH]; cbn.
  { split; [by intros _ vp ?%elem_of_nil|done]. }
  destruct (b vp0) as [lo hi] eqn:Hb. split.
  - destruct (cells !! vp_id vp0) as [x|] eqn:Hx; [|done].
    intros [[Hlo%Z.leb_le Hhi%Z.leb_le]%andb_true_iff Hrest]%andb_true_iff.
    intros vp [->|Hvp]%elem_of_cons.
    + exists x. rewrite Hb. by split.
    + by apply IH.
  - intros Hall.
    destruct (Hall vp0 (list_elem_of_here _ _)) as (x & -> & Hlo & Hhi).
    rewrite Hb in Hlo, Hhi. cbn in Hlo, Hhi.
    rewrite !andb_true_iff, !Z.leb_le. split; [done|].
    apply IH. intros vp Hvp. by apply Hall, list_elem_of_further.
Qed.

Lemma elem_of_get_files_by_query item limit d :
  limit ≤ 0 →
  item ∈ get_files_by_query limit d ↔
  ∃ it q, q ∈ mvp_query d ∧ it ∈ mvp_items d ∧
          i_point_id it = fst q ∧ i_path it = item.
Proof.
  intros Hlimit. unfold get_files_by_query.
  destruct (Z.ltb_spec 0 limit) as [?|_]; [lia|].
  rewrite list_elem_of_fmap. split.
  - intros ([dq path] & -> & Hin). rewrite order_by_Permutation in Hin.
    apply list_elem_of_bind in Hin as (q & Hin & Hq).
    apply list_elem_of_fmap in Hin as (it & [= -> ->] & [Hpid Hit]%list_elem_of_filter).
    by exists it, q.
  - intros (it & q & Hq & Hit & Hpid & <-). exists (snd q, i_path it).
    split; [done|]. rewrite order_by_Permutation.
    apply list_elem_of_bind. exists q. split; [|done].
    apply list_elem_of_fmap. exists it. split; [done|].
    by apply list_elem_of_filter.
Qed.

Lemma get_file_by_path_Some item d id :
  get_file_by_path item d = Some id →
  ∃ it, it ∈ mvp_items d ∧ i_path it = item ∧ i_point_id it = id.
Proof.
  unfold get_file_by_path.
  destruct (find _ (mvp_items d)) as [it|] eqn:Hfind; [|done].
  intros [= <-]. apply find_some in Hfind as [Hin Hpath].
  exists it. split; [by apply list_elem_of_In|].
  split; [|done]. by apply bool_decide_eq_true_1 in Hpath.
Qed.

Section Candidates.

Variable distance : point_type → point_type → Z.

(** C3. For a query with a radius in the range of [unsigned int], from any
    state reached on a new index: the pair of bounds computed for a vantage
    point at distance [d] from the query point is [max(0, d - radius)] and
    [min(0xFFFFFFFF, d + radius)], where [d] is the distance as the code
    holds it in a [uint32_t], equal to the value of the distance function
    whenever that value fits; the query returns; and a stored point has
    gone into the working table, with its distance to the query point,
    exactly when for every registered vantage point its cell lies between
    the two bounds of that vantage point. *)
Theorem query_admissible_interval (ops : list Impl.op) (pt : point_type)
    (radius limit : Z) :
  let s := Impl.run distance ops (Impl.new empty_database) in
  let d vp := to_uint32 (Impl.get_distance distance (vp_value vp) pt) in
  let lo vp := Z.max 0 (d vp - radius) in
  let hi vp := Z.min UINT32_MAX (d vp + radius) in
  0 ≤ radius ≤ UINT32_MAX →
  Impl.query_bounds distance pt radius (sel_vps (Impl.db s))
  = (λ vp, (lo vp, hi vp)) <$> sel_vps (Impl.db s) ∧
  (∀ vp, 0 ≤ distance (vp_value vp) pt ≤ UINT32_MAX →
         d vp = distance (vp_value vp) pt) ∧
  ∃ res s',
    Impl.query distance pt radius limit s = (Ok res, s') ∧
    ∀ id dq,
      (id, dq) ∈ mvp_query (Impl.db s') ↔
      ∃ r, r ∈ mvp_points (Impl.db s) ∧ id = p_id r ∧
           dq = to_uint32 (Impl.get_distance distance pt (p_value r)) ∧
           ∀ vp, vp ∈ mvp_vantage_points (Impl.db s) →
                 ∃ x, p_d r !! vp_id vp = Some x ∧ lo vp ≤ x ≤ hi vp.
Proof.
  intros s d lo hi Hradius.
  assert (Impl.cache_ok s) as Hok by apply cache_ok_run, cache_ok_new.
  assert (Impl.tables_ok (Impl.db s)) as Htab
    by (apply tables_ok_run; [apply cache_ok_new|apply tables_ok_empty]).
  assert (Impl.query_bounds distance pt radius (sel_vps (Impl.db s))
          = (λ vp, (lo vp, hi vp)) <$> sel_vps (Impl.db s)) as Hbounds.
  { unfold Impl.query_bounds. apply list_fmap_ext. intros i vp _. cbn zeta.
    pose proof (to_uint32_range
                  (Impl.get_distance distance (vp_value vp) pt)).
    by rewrite lower_bound_clamped, upper_bound_clamped. }
  split; [done|]. split.
  { intros vp Hfits. unfold d, Impl.get_distance.
    rewrite to_uint32_to_int32. by apply to_uint32_small. }
  destruct (query_returns distance pt radius limit s Hok Htab)
    as (res & s' & Hquery).
  exists res, s'. split; [done|].
  destruct (wp_returns _ _ _ _ _ _ Hquery
              (query_spec distance pt radius limit s Hok)) as (Hdb' & _).
  cbn zeta in Hdb'. rewrite Hdb'. cbn [mvp_query set_query].
  intros id dq. rewrite list_elem_of_fmap. unfold Impl.is_candidate.
  rewrite Hbounds. unfold sel_vp_ids.
  split.
  - intros (r & [= -> ->] & [Hcand Hr]%list_elem_of_filter).
    exists r. split; [done|]. split; [done|]. split; [done|].
    intros vp Hvp. rewrite between_all_spec in Hcand. apply Hcand.
    unfold sel_vps. by rewrite order_by_Permutation.
  - intros (r & Hr & -> & -> & Hall). exists r. split; [done|].
    apply list_elem_of_filter. split; [|done].
    apply between_all_spec. intros vp Hvp. apply Hall.
    unfold sel_vps in Hvp. by rewrite order_by_Permutation in Hvp.
Qed.

(** The result of a query without limit, from any state reached on a new
    index: the keys of the items whose point is a candidate. *)
Lemma query_result_unbounded (ops : list Impl.op) (pt : point_type)
    (radius : Z) :
  let s := Impl.run distance ops (Impl.new empty_database) in
  ∃ res s',
    Impl.query distance pt radius 0 s = (Ok res, s') ∧
    ∀ item,
      item ∈ res ↔
      ∃ it r, it ∈ mvp_items (Impl.db s) ∧ i_path it = item ∧
              r ∈ mvp_points (Impl.db s) ∧ p_id r = i_point_id it ∧
              Impl.is_candidate distance pt radius (Impl.db s) r = true.
Proof.
  intros s.
  assert (Impl.cache_ok s) as Hok by apply cache_ok_run, cache_ok_new.
  assert (Impl.tables_ok (Impl.db s)) as Htab
    by (apply tables_ok_run; [apply cache_ok_new|apply tables_ok_empty]).
  destruct (query_returns distance pt radius 0 s Hok Htab)
    as (res & s' & Hquery).
  exists res, s'. split; [done|].
  destruct (wp_returns _ _ _ _ _ _ Hquery
              (query_spec distance pt radius 0 s Hok)) as (_ & -> & _).
  intros item. rewrite elem_of_get_files_by_query by done.
  cbn [mvp_query mvp_items set_query]. split.
  - intros (it & q & Hq & Hit & Hpid & Hpath).
    apply list_elem_of_fmap in Hq as (r & -> & [Hcand Hr]%list_elem_of_filter).
    by exists it, r.
  - intros (it & r & Hit & Hpath & Hr & Hpid & Hcand).
    exists it, (p_id r,
                to_uint32 (Impl.get_distance distance pt (p_value r))).
    split; [|done]. apply list_elem_of_fmap. exists r. split; [done|].
    by apply list_elem_of_filter.
Qed.

End Candidates.

Lemma query_admissible_interval_witness :
  let s := Impl.run hamming64
             [Impl.Insert [x00] "a"; Impl.Insert [x03] "b";
              Impl.Insert [xff] "c"; Impl.AddVantagePoint [x00]]
             (Impl.new empty_database) in
  Impl.query_bounds hamming64 [x03] 3 (sel_vps (Impl.db s)) = [(0, 5)] ∧
  mvp_query (Impl.db (snd (Impl.query hamming64 [x03] 3 10 s)))
  = [(1, 2); (2, 0)].
Proof.
  intros s. split; [|reflexivity].
  refine (eq_trans
            (proj1 (query_admissible_interval hamming64
                      [Impl.Insert [x00] "a"; Impl.Insert [x03] "b";
                       Impl.Insert [xff] "c"; Impl.AddVantagePoint [x00]]
                      [x03] 3 10 _)) _).
  - unfold UINT32_MAX. lia.
  - reflexivity.
Defined.

(** ** No false negatives *)

Section Metric.

Variable distance : point_type → point_type → Z.

Hypothesis distance_fits : ∀ a b, 0 ≤ distance a b ≤ INT32_MAX.
Hypothesis distance_sym : ∀ a b, distance a b = distance b a.
Hypothesis distance_triangle :
  ∀ a b c, distance a c ≤ distance a b + distance b c.

(** By the triangle inequality a point within the radius passes the
    prune. *)
Lemma within_radius_is_candidate d pt radius r :
  Impl.db_ok distance d → 0 ≤ radius ≤ UINT32_MAX →
  r ∈ mvp_points d → distance pt (p_value r) ≤ radius →
  Impl.is_candidate distance pt radius d r = true.
Proof.
  intros [_ Hemb] Hradius Hr Hwithin.
  unfold Impl.is_candidate, sel_vp_ids, Impl.query_bounds.
  apply between_all_spec. intros vp Hvp.
  unfold sel_vps in Hvp. rewrite order_by_Permutation in Hvp.
  destruct (Hemb r Hr) as [_ Hcells].
  exists (distance (vp_value vp) (p_value r)). split; [by apply Hcells|].
  cbn [fst snd]. rewrite stored_distance_backfill by done.
  pose proof (distance_fits (vp_value vp) pt) as Hq.
  pose proof (distance_fits (vp_value vp) (p_value r)) as Hp.
  pose proof (distance_triangle (vp_value vp) (p_value r) pt) as Ht1.
  pose proof (distance_triangle (vp_value vp) pt (p_value r)) as Ht2.
  rewrite (distance_sym (p_value r) pt) in Ht1.
  unfold INT32_MAX, UINT32_MAX in *.
  rewrite lower_bound_clamped, upper_bound_clamped
    by (unfold UINT32_MAX; lia).
  unfold UINT32_MAX. lia.
Qed.

(** A query without limit, from any state reached on a new index, returns
    every item that resolves to a point within the radius. *)
Theorem query_no_false_negative (ops : list Impl.op) (pt : point_type)
    (radius : Z) (item : item_type) (r : point_row) :
  let s := Impl.run distance ops (Impl.new empty_database) in
  0 ≤ radius ≤ UINT32_MAX →
  r ∈ mvp_points (Impl.db s) →
  get_file_by_path item (Impl.db s) = Some (p_id r) →
  distance pt (p_value r) ≤ radius →
  ∃ res s', Impl.query distance pt radius 0 s = (Ok res, s') ∧ item ∈ res.
Proof.
  intros s Hradius Hr Hitem Hwithin.
  destruct (query_result_unbounded distance ops pt radius)
    as (res & s' & Hquery & Hres).
  exists res, s'. split; [done|]. apply Hres.
  destruct (get_file_by_path_Some _ _ _ Hitem) as (it & Hit & Hpath & Hpid).
  exists it, r. split; [done|]. split; [done|]. split; [done|].
  split; [done|]. apply within_radius_is_candidate; try done.
  apply db_ok_run; [done|apply cache_ok_new|by apply db_ok_empty].
Qed.

End Metric.

Lemma query_no_false_negative_witness :
  let s := Impl.run hamming64
             [Impl.Insert [x00] "a"; Impl.Insert [x03] "b";
              Impl.Insert [xff] "c"; Impl.AddVantagePoint [x0f]]
             (Impl.new empty_database) in
  ∃ res s', Impl.query hamming64 [x01] 1 0 s = (Ok res, s') ∧ "b" ∈ res.
Proof.
  intros s.
  apply (query_no_false_negative hamming64 hamming64_fits hamming64_sym
           hamming64_triangle _ [x01] 1 "b"
           (PointRow 2 [x03] {[1 := 2]})).
  - unfold UINT32_MAX. lia.
  - vm_compute. apply list_elem_of_further, list_elem_of_here.
  - reflexivity.
  - vm_compute. discriminate.
Defined.

(** ** Where the engine departs from its description *)

(** With no vantage point in the table every stored point is a candidate,
    whatever the radius. *)
Lemma is_candidate_no_vantage_point distance pt radius d r :
  mvp_vantage_points d = [] →
  Impl.is_candidate distance pt radius d r = true.
Proof.
  unfold Impl.is_candidate, sel_vp_ids, sel_vps. by intros ->.
Qed.

(** C1. [query] puts every candidate into the working table and reads the
    result off it without comparing the distance it has just computed with
    the radius. Two points at Hamming distance 8, no vantage point: the
    query around the first with radius 0 returns the items of both. *)
Theorem query_returns_item_beyond_radius :
  let s := Impl.run hamming64 [Impl.Insert [x00] "a"; Impl.Insert [xff] "b"]
                    (Impl.new empty_database) in
  hamming64 [x00] [xff] = 8 ∧
  get_file_by_path "b" (Impl.db s) = sel_point_by_value [xff] (Impl.db s) ∧
  fst (Impl.query hamming64 [x00] 0 0 s) = Ok ["a"; "b"].
Proof. repeat split. Qed.

(** C4. The same query before and after a vantage point is registered:
    the item at distance 8 is in the first result and not in the second. *)
Theorem add_vantage_point_changes_query_result :
  let s := Impl.run hamming64 [Impl.Insert [x00] "a"; Impl.Insert [xff] "b"]
                    (Impl.new empty_database) in
  let s' := snd (Impl.add_vantage_point hamming64 [x00] s) in
  fst (Impl.query hamming64 [x00] 0 0 s) = Ok ["a"; "b"] ∧
  fst (Impl.add_vantage_point hamming64 [x00] s) = Ok tt ∧
  fst (Impl.query hamming64 [x00] 0 0 s') = Ok ["a"].
Proof. repeat split. Qed.

(** [insert] has no path that throws [DistanceOverflow]: what it throws
    comes from preparing or executing the insert statement. *)
Lemma insert_throws_storage_error_only distance v item s :
  Impl.wp (Impl.insert distance v item)
    (λ _ _, True) (λ e _, e = StorageError) s.
Proof.
  unfold Impl.insert. rewrite wp_transaction, wp_bind.
  unfold Impl.insert_point_. rewrite wp_bind, wp_db_read.
  destruct (sel_point_by_value v (Impl.db s)) as [id|].
  { rewrite wp_ret.
    eapply wp_mono; [| |apply insert_item__tables]; done. }
  rewrite wp_bind. unfold Impl.vp_dists_.
  rewrite wp_bind, wp_db_read, wp_bind, wp_update_vp_ids, wp_ret, wp_bind.
  set (s1 := if bool_decide _ then _ else _).
  unfold Impl.wp at 1, Impl.the_insert_point, Impl.make_insert_point.
  assert (∀ stmt s2,
            Impl.wp
              (Impl.db_exec
                 (exec_insert_point stmt v
                    ((λ vp, to_int32 (to_uint32
                               (Impl.get_distance distance (vp_value vp) v)))
                       <$> sel_vps (Impl.db s))) ≫= λ id,
               Impl.db_update (increment_count col_points) ;; mret id)
              (λ id s3, Impl.wp (Impl.insert_item_ id item) (λ _ _, True)
                          (λ e s4, e = StorageError) s3)
              (λ e s3, e = StorageError) s2) as Hexec.
  { intros stmt s2. rewrite wp_bind, wp_db_exec. unfold exec_insert_point.
    case_bool_decide; [done|]. case_bool_decide; [done|].
    rewrite wp_bind, wp_db_update, wp_ret.
    eapply wp_mono; [| |apply insert_item__tables]; done. }
  destruct (Impl.insert_point s1) as [stmt|]; [apply Hexec|].
  destruct (columns_exist _ _); [apply Hexec|done].
Qed.

(** C7. [get_distance] casts the distance to [int] without the check its
    comment asks for. With one vantage point and a distance function that
    yields [2^31] for the pair, [insert] returns and the cell of the new
    point holds [-2^31]. *)
Theorem insert_stores_truncated_distance :
  let s := Impl.run far_apart [Impl.AddVantagePoint [x00]]
                    (Impl.new empty_database) in
  let r := Impl.insert far_apart [xff] "b" s in
  far_apart [x00] [xff] = 2 ^ 31 ∧
  INT32_MAX < far_apart [x00] [xff] ∧
  fst r = Ok tt ∧
  (λ p, (p_value p, p_d p !! 1)) <$> mvp_points (Impl.db (snd r))
  = [([xff], Some (- 2 ^ 31))].
Proof. repeat split. Qed.

(** C2. The cell [insert_point_] writes is the distance after the unchecked
    cast of [get_distance], not the distance. A point, a vantage point,
    and a second point for which the distance function yields [2^31]: all
    three calls return, the second point has its one cell, the cell holds
    [-2^31], and the embedding of the stored points is not complete. *)
Theorem embedding_cell_differs_from_distance :
  let s := Impl.run far_apart
             [Impl.Insert [x00] "a"; Impl.AddVantagePoint [x00]]
             (Impl.new empty_database) in
  let r := Impl.insert far_apart [xff] "b" s in
  let d := Impl.db (snd r) in
  fst r = Ok tt ∧
  mvp_vantage_points d = [VpRow 1 [x00]] ∧
  (λ p, (p_value p, p_d p !! 1, far_apart [x00] (p_value p))) <$> mvp_points d
  = [([x00], Some 0, 0); ([xff], Some (- 2 ^ 31), 2 ^ 31)] ∧
  ¬ ∀ p, p ∈ mvp_points d → Impl.embedding_complete far_apart d p.
Proof.
  intros s r d. split; [reflexivity|]. split; [reflexivity|].
  split; [reflexivity|]. intros Hall.
  destruct (Hall (PointRow 2 [xff] {[1 := - 2 ^ 31]})) as [_ Hcell].
  { vm_compute. apply list_elem_of_further, list_elem_of_here. }
  specialize (Hcell (VpRow 1 [x00])). vm_compute in Hcell.
  by specialize (Hcell (list_elem_of_here _ _)).
Qed.

(** C5. The empty value is bound as NULL: the SELECT of [insert_point_]
    finds no row for it and the UNIQUE constraint admits it again. On a new
    index [insert] of the empty value under a key returns, and the same
    call made again returns with a second point row, of id 2, and the
    points counter raised from 1 to 2. *)
Theorem insert_empty_value_twice :
  let s1 := snd (Impl.insert hamming64 [] "k" (Impl.new empty_database)) in
  let s2 := snd (Impl.insert hamming64 [] "k" s1) in
  fst (Impl.insert hamming64 [] "k" (Impl.new empty_database)) = Ok tt ∧
  (λ p, (p_id p, p_value p)) <$> mvp_points (Impl.db s1) = [(1, [])] ∧
  n_points <$> mvp_counts (Impl.db s1) = Some 1 ∧
  sel_point_by_value [] (Impl.db s1) = None ∧
  fst (Impl.insert_point_ hamming64 [] s1) = Ok 2 ∧
  fst (Impl.insert hamming64 [] "k" s1) = Ok tt ∧
  (λ p, (p_id p, p_value p)) <$> mvp_points (Impl.db s2)
  = [(1, []); (2, [])] ∧
  n_points <$> mvp_counts (Impl.db s2) = Some 2.
Proof. repeat split. Qed.

(** C6. The empty value is bound as NULL, which the UNIQUE constraint of
    [mvp_vantage_points] never rejects. On a new index [add_vantage_point]
    of the empty value returns, and the same call made again, with the
    value in the table, returns too: the table then has two vantage points
    of that value, the point table two columns, and the counter reads 2. *)
Theorem add_vantage_point_empty_value_twice :
  let s1 := snd (Impl.add_vantage_point hamming64 []
                   (Impl.new empty_database)) in
  let r := Impl.add_vantage_point hamming64 [] s1 in
  vp_value <$> mvp_vantage_points (Impl.db s1) = [[]] ∧
  fst r = Ok tt ∧
  mvp_vantage_points (Impl.db (snd r)) = [VpRow 1 []; VpRow 2 []] ∧
  mvp_points_cols (Impl.db (snd r)) = [1; 2] ∧
  n_vantage_points <$> mvp_counts (Impl.db (snd r)) = Some 2.
Proof. repeat split. Qed.

(** C8. [find_vantage_point] never throws [InsufficientData] and never
    returns a point: it leaves the state as it was and either reaches its
    closing brace without a value, or fails to read the counts. On a new
    index, empty or with a point in it, it reaches the closing brace. *)
Theorem find_vantage_point_returns_nothing (n : Z) (s : Impl.state) :
  snd (Impl.find_vantage_point n s) = s ∧
  (fst (Impl.find_vantage_point n s) = Ok None ∨
   fst (Impl.find_vantage_point n s) = Throw StorageError ∧
   get_count (Impl.db s) = None) ∧
  fst (Impl.find_vantage_point n (Impl.new empty_database)) = Ok None ∧
  fst (Impl.find_vantage_point n
         (Impl.run hamming64 [Impl.Insert [x00] "a"] (Impl.new empty_database)))
  = Ok None.
Proof.
  split; [|split; [|by split]].
  - unfold Impl.find_vantage_point, Impl.transaction, mbind, Impl.M_bind.
    unfold Impl.db_read. cbn.
    destruct (get_count (Impl.db s)) as [r|]; cbn; [|by destruct s].
    by destruct (0 <? n_vantage_points r).
  - unfold Impl.find_vantage_point, Impl.transaction, mbind, Impl.M_bind.
    unfold Impl.db_read. cbn.
    destruct (get_count (Impl.db s)) as [r|]; cbn; [|by right].
    left. by destruct (0 <? n_vantage_points r).
Qed.
